(** * JSON-directory-to-CSV converter: flattening, natural ordering, schema

    A shallow embedding of [json_to_csv_expanded_natsort.py]:
    [natural_sort_key], [flatten_json], [extract_chunk_number],
    [calculate_time_offset] and [json_directory_to_csv], followed by the
    properties of the specification that concern them.

    Conventions of the embedding.
    - A Python [str] is a [string].  The character classes are those of
      the ASCII range: the digits of [\d], [str.isdigit] and [int] are
      ['0'..'9'], and [str.lower] folds ['A'..'Z'].  On text outside that
      range the interpreter knows more digits and more letters than the
      embedding, so the properties that depend on the class of a character
      are stated for plain text ([plain_text], [plain_json]).
    - A Python [int] is a [Z].  A Python [float] is carried as the text
      [repr] gives it: the converter never computes with a float, it only
      stores it and stringifies it.
    - A Python [dict] is an association list in insertion order with unique
      keys ([dict_set] overwrites in place, as [d[k] = v] does).
    - An exception is a value of [exn]; a comparison that Python refuses with
      [TypeError] returns [None]. *)

From Stdlib Require Import List String Ascii ZArith NArith Bool Arith Lia.
From Stdlib Require Import Permutation Sorted DecimalString Decimal DecimalNat DecimalZ.
Import ListNotations.

Set Warnings "-register-all".

Local Open Scope list_scope.
Local Open Scope string_scope.

(* ================================================================= *)
(** ** Characters and strings *)

(** The digits ['0'..'9']: the class of [\d], [str.isdigit] and [int] on
    text of the ASCII range (see [plain_text] below). *)
Definition is_digit (c : ascii) : bool :=
  let n := nat_of_ascii c in (48 <=? n)%nat && (n <=? 57)%nat.

Definition digit_value (c : ascii) : Z := Z.of_nat (nat_of_ascii c) - 48.

(** [str.lower] on a character of the ASCII range: it folds ['A'..'Z']. *)
Definition lower_char (c : ascii) : ascii :=
  let n := nat_of_ascii c in
  if (65 <=? n)%nat && (n <=? 90)%nat then ascii_of_nat (n + 32) else c.

(** [str.lower()] *)
Fixpoint lower (s : string) : string :=
  match s with
  | EmptyString => EmptyString
  | String c r => String (lower_char c) (lower r)
  end.

Fixpoint all_digits (s : string) : bool :=
  match s with
  | EmptyString => true
  | String c r => is_digit c && all_digits r
  end.

Fixpoint no_digit (s : string) : bool :=
  match s with
  | EmptyString => true
  | String c r => negb (is_digit c) && no_digit r
  end.

(** [str.isdigit()]: at least one character, and all of them digits. *)
Definition isdigit (s : string) : bool :=
  match s with
  | EmptyString => false
  | String _ _ => all_digits s
  end.

Fixpoint int_of_digits_acc (s : string) (acc : Z) : Z :=
  match s with
  | EmptyString => acc
  | String c r => int_of_digits_acc r (10 * acc + digit_value c)
  end.

(** [int(text)] on a run of decimal digits. *)
Definition int_of_digits (s : string) : Z := int_of_digits_acc s 0.

(** [str(n)] for a Python integer. *)
Definition str_of_Z (z : Z) : string := NilZero.string_of_int (Z.to_int z).

(** [str(n)] for a list position (the [orig_idx + 1] of an f-string). *)
Definition str_of_nat (n : nat) : string := NilEmpty.string_of_uint (Nat.to_uint n).

(** Python's [<] on [str]: lexicographic on the characters. *)
Fixpoint str_ltb (a b : string) : bool :=
  match a, b with
  | EmptyString, EmptyString => false
  | EmptyString, String _ _ => true
  | String _ _, EmptyString => false
  | String x a', String y b' =>
      if Ascii.eqb x y then str_ltb a' b'
      else (nat_of_ascii x <? nat_of_ascii y)%nat
  end.

(** The longest prefix of digits, and what follows it. *)
Fixpoint take_digits (s : string) : string :=
  match s with
  | EmptyString => EmptyString
  | String c r => if is_digit c then String c (take_digits r) else EmptyString
  end.

Fixpoint strip_prefix (p s : string) : option string :=
  match p, s with
  | EmptyString, _ => Some s
  | String a p', String b s' => if Ascii.eqb a b then strip_prefix p' s' else None
  | String _ _, EmptyString => None
  end.

(** [re.split(r'(\d+)', s)]: the pieces between the maximal digit runs,
    with the runs kept at the odd positions.  The result always has odd
    length; the first and last piece may be empty. *)
Fixpoint re_split_digits (s : string) : list string :=
  match s with
  | EmptyString => [EmptyString]
  | String c rest =>
      let r := re_split_digits rest in
      if is_digit c then
        match r with
        | EmptyString :: d :: tl => EmptyString :: String c d :: tl
        | _ => EmptyString :: String c EmptyString :: r
        end
      else
        match r with
        | t :: tl => String c t :: tl
        | [] => [String c EmptyString]
        end
  end.

(** [re.findall(r'\d+', s)]: the maximal digit runs, left to right. *)
Fixpoint findall_digits (s : string) : list string :=
  match s with
  | EmptyString => []
  | String c rest =>
      if is_digit c then
        match rest with
        | String c' _ =>
            if is_digit c' then
              match findall_digits rest with
              | d :: tl => String c d :: tl
              | [] => [String c EmptyString]
              end
            else String c EmptyString :: findall_digits rest
        | EmptyString => [String c EmptyString]
        end
      else findall_digits rest
  end.

(** [re.search(r'chunk_(\d+)', s)], returning group 1 of the leftmost match. *)
Fixpoint search_chunk (s : string) : option string :=
  match s with
  | EmptyString => None
  | String _ rest =>
      match strip_prefix "chunk_" s with
      | Some tail =>
          match take_digits tail with
          | EmptyString => search_chunk rest
          | ds => Some ds
          end
      | None => search_chunk rest
      end
  end.

(* ================================================================= *)
(** ** Plain text

    The character classes above are those of Python on the ASCII range:
    there [\d], [str.isdigit] and [int] know no digit but ['0'..'9'],
    [str.lower] folds no letter but ['A'..'Z'], and the Unicode
    normalisation that [natsort] applies to its input changes nothing.
    [int] converts a numeral of at most [MAX_STR_DIGITS] digits and raises
    [ValueError] on a longer one.  Outside this range the embedding does
    not follow the interpreter, so the properties that depend on the class
    of a character or on [int] accepting a run of digits are stated for
    plain text: ASCII characters, and no run of digits longer than [int]
    converts. *)

Definition is_ascii (c : ascii) : bool := (nat_of_ascii c <? 128)%nat.

Fixpoint ascii_text (s : string) : bool :=
  match s with
  | EmptyString => true
  | String c r => is_ascii c && ascii_text r
  end.

(** [sys.int_info.default_max_str_digits] *)
Definition MAX_STR_DIGITS : nat := 4300.

Definition plain_text (s : string) : bool :=
  ascii_text s
  && forallb (fun run => (String.length run <=? MAX_STR_DIGITS)%nat) (findall_digits s).

(* ================================================================= *)
(** ** Sort keys and Python's ordering on them *)

(** An element of a sort key: [int(text)] or [text.lower()]. *)
Inductive tok : Type :=
  | TInt (n : Z)
  | TStr (s : string).

(** [natural_sort_key(s)] *)
Definition natural_sort_key (s : string) : list tok :=
  map (fun text => if isdigit text then TInt (int_of_digits text) else TStr (lower text))
      (re_split_digits s).

(** [==] between key elements: an [int] and a [str] are unequal. *)
Definition tok_eqb (x y : tok) : bool :=
  match x, y with
  | TInt a, TInt b => Z.eqb a b
  | TStr a, TStr b => String.eqb a b
  | _, _ => false
  end.

(** [<] between key elements: [TypeError] between an [int] and a [str]. *)
Definition tok_lt (x y : tok) : option bool :=
  match x, y with
  | TInt a, TInt b => Some (Z.ltb a b)
  | TStr a, TStr b => Some (str_ltb a b)
  | _, _ => None
  end.

(** [<] between two lists: the first position at which the elements are
    unequal decides; without one, the shorter list is the smaller. *)
Fixpoint key_lt (a b : list tok) : option bool :=
  match a, b with
  | [], [] => Some false
  | [], _ :: _ => Some true
  | _ :: _, [] => Some false
  | x :: a', y :: b' => if tok_eqb x y then key_lt a' b' else tok_lt x y
  end.

(* ================================================================= *)
(** ** Sorting

    [list.sort] and [sorted] are stable and use only [<].  On a total
    preorder every stable sort returns the same list, so the insertion
    sort below stands for them. *)

Section StableSort.
Context {A : Type}.
Variable ltb : A -> A -> bool.

Fixpoint insert_sorted (x : A) (l : list A) : list A :=
  match l with
  | [] => [x]
  | y :: r => if ltb y x then y :: insert_sorted x r else x :: y :: r
  end.

Fixpoint stable_sort (l : list A) : list A :=
  match l with
  | [] => []
  | x :: r => insert_sorted x (stable_sort r)
  end.
End StableSort.

(** The same sort with a comparison that may raise. *)
Section FallibleSort.
Context {A : Type}.
Variable lt : A -> A -> option bool.

Fixpoint py_insert (x : A) (l : list A) : option (list A) :=
  match l with
  | [] => Some [x]
  | y :: r =>
      match lt y x with
      | None => None
      | Some true =>
          match py_insert x r with
          | Some r' => Some (y :: r')
          | None => None
          end
      | Some false => Some (x :: y :: r)
      end
  end.

Fixpoint py_sort (l : list A) : option (list A) :=
  match l with
  | [] => Some []
  | x :: r =>
      match py_sort r with
      | Some r' => py_insert x r'
      | None => None
      end
  end.
End FallibleSort.

(** [l.sort(key=natural_sort_key)] *)
Definition sort_natural (l : list string) : option (list string) :=
  py_sort (fun a b => key_lt (natural_sort_key a) (natural_sort_key b)) l.

(* ================================================================= *)
(** ** Parsed JSON values *)

(** What [json.load] returns.  An object is the [dict] it was parsed into:
    its pairs in insertion order. *)
Inductive json : Type :=
  | JNull
  | JBool (b : bool)
  | JInt (n : Z)
  | JFloat (text : string)
  | JStr (s : string)
  | JArray (items : list json)
  | JObject (members : list (string * json)).

(** [isinstance(item, (dict, list))] *)
Definition is_container (v : json) : bool :=
  match v with
  | JArray _ | JObject _ => true
  | _ => false
  end.

Definition is_scalar (v : json) : bool := negb (is_container v).

Fixpoint json_depth (v : json) : nat :=
  match v with
  | JArray l =>
      S ((fix go (l : list json) : nat :=
            match l with
            | [] => O
            | x :: r => Nat.max (json_depth x) (go r)
            end) l)
  | JObject kvs =>
      S ((fix go (l : list (string * json)) : nat :=
            match l with
            | [] => O
            | (_, x) :: r => Nat.max (json_depth x) (go r)
            end) kvs)
  | _ => O
  end.

(** The number of scalar leaves of a document. *)
Fixpoint count_leaves (v : json) : nat :=
  match v with
  | JArray l =>
      (fix go (l : list json) : nat :=
         match l with
         | [] => O
         | x :: r => count_leaves x + go r
         end) l
  | JObject kvs =>
      (fix go (l : list (string * json)) : nat :=
         match l with
         | [] => O
         | (_, x) :: r => count_leaves x + go r
         end) kvs
  | _ => 1
  end.

(* ----------------------------------------------------------------- *)
(** *** [str] and [repr] of a parsed value *)

Fixpoint contains_char (c : ascii) (s : string) : bool :=
  match s with
  | EmptyString => false
  | String x r => Ascii.eqb x c || contains_char c r
  end.

Definition hex_digit (n : nat) : ascii :=
  match get n "0123456789abcdef" with
  | Some c => c
  | None => "0"%char
  end.

(** The double quote character. *)
Definition double_quote : ascii := ascii_of_nat 34.

(** One character of [repr(s)] when the surrounding quote is [q]. *)
Definition repr_char (q c : ascii) : string :=
  let n := nat_of_ascii c in
  if Ascii.eqb c q || Ascii.eqb c "\"%char then String "\"%char (String c EmptyString)
  else if (n =? 9)%nat then "\t"
  else if (n =? 10)%nat then "\n"
  else if (n =? 13)%nat then "\r"
  else if (n <? 32)%nat || (n =? 127)%nat then
    "\x" ++ String (hex_digit (n / 16)) (String (hex_digit (n mod 16)) EmptyString)
  else String c EmptyString.

Fixpoint repr_chars (q : ascii) (s : string) : string :=
  match s with
  | EmptyString => EmptyString
  | String c r => repr_char q c ++ repr_chars q r
  end.

(** [repr(s)] for a [str]: single quotes, unless the text has a single
    quote and no double quote. *)
Definition repr_str (s : string) : string :=
  let q := if contains_char "'"%char s && negb (contains_char double_quote s)
           then double_quote else "'"%char in
  String q (repr_chars q s ++ String q EmptyString).

Fixpoint join (sep : string) (l : list string) : string :=
  match l with
  | [] => EmptyString
  | [x] => x
  | x :: r => x ++ sep ++ join sep r
  end.

Fixpoint py_repr (v : json) : string :=
  match v with
  | JNull => "None"
  | JBool true => "True"
  | JBool false => "False"
  | JInt n => str_of_Z n
  | JFloat text => text
  | JStr s => repr_str s
  | JArray l =>
      "[" ++ join ", " ((fix go (l : list json) : list string :=
                           match l with
                           | [] => []
                           | x :: r => py_repr x :: go r
                           end) l) ++ "]"
  | JObject kvs =>
      "{" ++ join ", " ((fix go (l : list (string * json)) : list string :=
                           match l with
                           | [] => []
                           | (k, x) :: r => (repr_str k ++ ": " ++ py_repr x) :: go r
                           end) kvs) ++ "}"
  end.

(** [str(v)] *)
Definition py_str (v : json) : string :=
  match v with
  | JStr s => s
  | _ => py_repr v
  end.

(** A document all of whose keys and stringified scalars are plain text. *)
Fixpoint plain_json (v : json) : bool :=
  match v with
  | JArray l =>
      (fix go (l : list json) : bool :=
         match l with
         | [] => true
         | x :: r => plain_json x && go r
         end) l
  | JObject kvs =>
      (fix go (l : list (string * json)) : bool :=
         match l with
         | [] => true
         | (k, x) :: r => plain_text k && plain_json x && go r
         end) kvs
  | _ => plain_text (py_str v)
  end.

(* ----------------------------------------------------------------- *)
(** *** The [natsort] library

    [natsorted(seq, key=f)] is [sorted] with the library's key applied to
    [f(x)].  With the default algorithm the key of a string is the tuple of
    its non-empty pieces around the digit runs, the runs as integers and the
    text unchanged, with an empty string put in front when a number comes
    first; so in every key texts and numbers alternate, text first, and two
    keys always compare.  The library first brings its input into the
    Unicode normal form NFD, which leaves plain text as it is; the key
    below is the library's on plain text. *)

Definition nonempty (s : string) : bool :=
  match s with
  | EmptyString => false
  | String _ _ => true
  end.

Definition natsort_key (s : string) : list tok :=
  let toks :=
    map (fun text => if isdigit text then TInt (int_of_digits text) else TStr text)
        (filter nonempty (re_split_digits s)) in
  match toks with
  | TInt _ :: _ => TStr EmptyString :: toks
  | _ => toks
  end.

Definition natsort_ltb (a b : string) : bool :=
  match key_lt (natsort_key a) (natsort_key b) with
  | Some r => r
  | None => false
  end.

Definition natsorted {A : Type} (key : A -> string) (l : list A) : list A :=
  stable_sort (fun x y => natsort_ltb (key x) (key y)) l.

(** [enumerate(value)] as a list *)
Definition enumerate {A : Type} (l : list A) : list (nat * A) :=
  combine (seq 0 (List.length l)) l.

(* ================================================================= *)
(** ** Dictionaries *)

Definition dict : Type := list (string * json).

(** [d[k] = v] *)
Fixpoint dict_set (d : dict) (k : string) (v : json) : dict :=
  match d with
  | [] => [(k, v)]
  | (k', v') :: r =>
      if String.eqb k' k then (k', v) :: r else (k', v') :: dict_set r k v
  end.

(** [d.update(d')] *)
Definition dict_update (d d' : dict) : dict :=
  fold_left (fun acc kv => dict_set acc (fst kv) (snd kv)) d' d.

(** [d.get(k)] *)
Fixpoint dict_get (d : dict) (k : string) : option json :=
  match d with
  | [] => None
  | (k', v) :: r => if String.eqb k' k then Some v else dict_get r k
  end.

(** [d.keys()] *)
Definition dict_keys (d : dict) : list string := map fst d.

(* ================================================================= *)
(** ** [flatten_json]

    The recursion of the source follows the items of a sorted list, which
    no structural argument of the function decreases along; the embedding
    recurses on a bound of the nesting depth, and [flatten_json] starts it
    above the depth of the document ([flatten_fuel_stable] shows that any
    larger bound gives the same dictionary).

    The two loops over [sorted_items] share one body, [list_step]; they
    differ in how [list_key] is formed.  [arrange] is the line
    [sorted_items = natsorted(enumerate(value), key=lambda x: str(x[1]))]. *)

Section Flattener.
Variable arrange : list json -> list (nat * json).

Section Body.
Variable self : json -> string -> string -> dict.
Variable sep : string.

Definition list_step (list_key_of : nat -> string)
           (items : dict) (p : nat * json) : dict :=
  let '(orig_idx, item) := p in
  let list_key := list_key_of orig_idx in
  if is_container item
  then dict_update items (self item list_key sep)
  else dict_set items list_key item.

Definition object_step (parent_key : string)
           (items : dict) (kv : string * json) : dict :=
  let '(key, value) := kv in
  let new_key := if nonempty parent_key then parent_key ++ sep ++ key else key in
  match value with
  | JObject _ => dict_update items (self value new_key sep)
  | JArray l =>
      fold_left (list_step (fun orig_idx => new_key ++ "_" ++ str_of_nat (orig_idx + 1)))
                (arrange l) items
  | _ => dict_set items new_key value
  end.
End Body.

Fixpoint flatten_fuel (fuel : nat) (data : json) (parent_key sep : string) : dict :=
  match fuel with
  | O => []
  | S n =>
      match data with
      | JObject kvs =>
          fold_left (object_step (flatten_fuel n) sep parent_key) kvs []
      | JArray l =>
          fold_left
            (list_step (flatten_fuel n) sep
               (fun orig_idx =>
                  if nonempty parent_key
                  then parent_key ++ "_" ++ str_of_nat (orig_idx + 1)
                  else "item_" ++ str_of_nat (orig_idx + 1)))
            (arrange l) []
      | _ => dict_set [] parent_key data
      end
  end.
End Flattener.

(** Lines 30 and 41 of the source. *)
Definition natsorted_items (value : list json) : list (nat * json) :=
  natsorted (fun x => py_str (snd x)) (enumerate value).

(** [flatten_json(data, parent_key, sep)] *)
Definition flatten_json (data : json) (parent_key sep : string) : dict :=
  flatten_fuel natsorted_items (S (json_depth data)) data parent_key sep.

(** The variant that walks every array in positional order:
    [sorted_items = enumerate(value)]. *)
Definition flatten_json_positional (data : json) (parent_key sep : string) : dict :=
  flatten_fuel (@enumerate json) (S (json_depth data)) data parent_key sep.

(* ================================================================= *)
(** ** Chunk index and time offset *)

(** [extract_chunk_number(filename)] *)
Definition extract_chunk_number (filename : string) : Z :=
  match search_chunk filename with
  | Some group1 => int_of_digits group1
  | None =>
      match findall_digits filename with
      | [] => 0%Z
      | numbers => int_of_digits (last numbers EmptyString)
      end
  end.

(** [calculate_time_offset(chunk_number)] *)
Definition calculate_time_offset (chunk_number : Z) : Z :=
  Z.max 0 (chunk_number - 1).

(* ================================================================= *)
(** ** [json_directory_to_csv]

    The file system the job sees: whether the input path exists and is a
    directory, what [glob("*.json")] enumerates (in the order the file
    system gives), how the body of the [try] block ends for each file, and
    whether the output file can be created and written.  The job's observable result is
    the list of warnings it printed and either the table it wrote or the
    exception it raised.  The quoting of cells by the [csv] module is not
    modelled: a row is the list of its cell texts. *)

(** An exception raised in the body of the [try] block that the [except]
    clause of line 118 does not name.  It leaves the loop and the job. *)
Inductive uncaught : Type :=
  | IntDigitsLimit   (* ValueError: an integer numeral of more digits than
                        int() converts, met by json.load *)
  | RecursionLimit.  (* RecursionError: a document nested beyond the
                        recursion limit, in json.load or in flatten_json *)

(** How the body of the [try] block ends for a file: it runs to its end
    with the document [json.load] returned, or it raises an exception the
    [except] clause names, or it raises another one. *)
Inductive load_result : Type :=
  | Loaded (data : json)
  | LoadError            (* json.JSONDecodeError, IOError or UnicodeDecodeError *)
  | LoadUncaught (e : uncaught).

Record json_file : Type := {
  file_name : string;
  file_load : load_result
}.

Record directory : Type := {
  dir_exists : bool;
  dir_is_dir : bool;
  dir_glob : list json_file;
  out_writable : bool
}.

Inductive exn : Type :=
  | ValueError_no_directory    (* "Directory '...' does not exist" *)
  | ValueError_no_json_files   (* "No JSON files found in directory '...'" *)
  | ValueError_no_valid_json   (* "No valid JSON files could be processed" *)
  | ValueError_int_digits      (* "Exceeds the limit (4300 digits) for integer string conversion" *)
  | RecursionError             (* "maximum recursion depth exceeded" *)
  | TypeError                  (* a comparison between an int and a str *)
  | OSError.                   (* from mkdir or open(output_file, 'w') *)

Inductive result (A : Type) : Type :=
  | Return (a : A)
  | Raise (e : exn).
Arguments Return {A} a.
Arguments Raise {A} e.

Record csv_table : Type := {
  header : list string;
  rows : list (list string)
}.

Definition TIME_COLUMN : string := "5_sec_time_offset".

(** What the [csv] writer prints for a value: nothing for [None], the
    text itself for a [str], [str(v)] otherwise. *)
Definition csv_cell (v : json) : string :=
  match v with
  | JNull => EmptyString
  | _ => py_str v
  end.

(** [{field: flattened_data.get(field, '') for field in fieldnames}], written
    in the order of [fieldnames]. *)
Definition write_row (fieldnames : list string) (flattened_data : dict) : list string :=
  map (fun field =>
         csv_cell (match dict_get flattened_data field with
                   | Some v => v
                   | None => JStr EmptyString
                   end))
      fieldnames.

Definition exn_of_uncaught (e : uncaught) : exn :=
  match e with
  | IntDigitsLimit => ValueError_int_digits
  | RecursionLimit => RecursionError
  end.

(** The [try] statement for one file: the flattened record, [None] when
    the file is skipped by the [except] clause, or the exception that the
    clause lets through. *)
Definition process_file (f : json_file) : result (option dict) :=
  match file_load f with
  | Loaded data =>
      let flattened_data := flatten_json data EmptyString "_" in
      let chunk_number := extract_chunk_number (file_name f) in
      let time_offset := calculate_time_offset chunk_number in
      Return (Some (dict_set flattened_data TIME_COLUMN (JInt time_offset)))
  | LoadError => Return None
  | LoadUncaught e => Raise (exn_of_uncaught e)
  end.

(** The state of the first pass: the names added to [all_fieldnames] so far
    (in the order they were added), [flattened_data_list], and the names
    of the files a warning was printed for. *)
Definition pass_state : Type := (list string * list dict * list string)%type.

(** The loop of lines 104 to 120: the state it ends in, and the exception
    that ended it, if one did. *)
Fixpoint first_pass (json_files : list json_file) (st : pass_state)
  : pass_state * option exn :=
  match json_files with
  | [] => (st, None)
  | json_file :: rest =>
      let '(all_fieldnames, flattened_data_list, warnings) := st in
      match process_file json_file with
      | Return (Some flattened_data) =>
          first_pass rest
            ((all_fieldnames ++ dict_keys flattened_data)%list,
             (flattened_data_list ++ [flattened_data])%list,
             warnings)
      | Return None =>
          first_pass rest
            (all_fieldnames, flattened_data_list, (warnings ++ [file_name json_file])%list)
      | Raise e => (st, Some e)
      end
  end.

(** [json_files.sort(key=lambda x: extract_chunk_number(x.name))] *)
Definition sort_by_chunk (json_files : list json_file) : list json_file :=
  stable_sort
    (fun a b => (extract_chunk_number (file_name a) <? extract_chunk_number (file_name b))%Z)
    json_files.

(** [all_fieldnames.discard(name)] on the names added so far. *)
Definition set_discard (names : list string) (name : string) : list string :=
  filter (fun k => negb (String.eqb k name)) names.

Section Job.
(** A [set] has no order of its own: [list(all_fieldnames)] enumerates the
    names in an order the interpreter chooses.  [set_iter] is that choice,
    given the names that were added; [set_iter_ok] is all the language
    promises of it: every name once. *)
Variable set_iter : list string -> list string.

Definition json_directory_to_csv (d : directory) : list string * result csv_table :=
  if negb (dir_exists d) || negb (dir_is_dir d) then ([], Raise ValueError_no_directory)
  else
    match dir_glob d with
    | [] => ([], Raise ValueError_no_json_files)
    | _ :: _ =>
        let json_files := sort_by_chunk (dir_glob d) in
        let '((all_fieldnames, flattened_data_list, warnings), raised) :=
          first_pass json_files ([], [], []) in
        match raised with
        | Some e => (warnings, Raise e)
        | None =>
            match flattened_data_list with
            | [] => (warnings, Raise ValueError_no_valid_json)
            | _ :: _ =>
                let fieldnames_list := set_iter (set_discard all_fieldnames TIME_COLUMN) in
                match sort_natural fieldnames_list with
                | None => (warnings, Raise TypeError)
                | Some fieldnames_list =>
                    let fieldnames := TIME_COLUMN :: fieldnames_list in
                    if out_writable d
                    then (warnings,
                          Return {| header := fieldnames;
                                    rows := map (write_row fieldnames) flattened_data_list |})
                    else (warnings, Raise OSError)
                end
            end
        end
    end.
End Job.

Definition set_iter_ok (set_iter : list string -> list string) : Prop :=
  forall names, NoDup (set_iter names) /\ forall x, In x (set_iter names) <-> In x names.

(** One admissible enumeration: each name where it was first added. *)
Fixpoint first_seen (names : list string) : list string :=
  match names with
  | [] => []
  | x :: r => x :: filter (fun y => negb (String.eqb y x)) (first_seen r)
  end.

Definition mk_file (name : string) (data : json) : json_file :=
  {| file_name := name; file_load := Loaded data |}.

Definition bad_file (name : string) : json_file :=
  {| file_name := name; file_load := LoadError |}.

Definition mk_dir (files : list json_file) : directory :=
  {| dir_exists := true; dir_is_dir := true; dir_glob := files; out_writable := true |}.

(* ================================================================= *)
(** ** The natural order as the specification words it

    Section 4.2 of the specification: split the string into maximal
    alternating runs of digits and non-digits; map each digit run to its
    integer value and each non-digit run to its case-folded text; compare
    the two sequences element by element, an integer with an integer and
    a text with a text.

    The definitions of this section are written from that paragraph, with
    tables of the digits and of the letters and the decimal numerals of
    the standard library.  They share nothing with [natural_sort_key] and
    [natsort_key] but the type of the elements of a key, and are what the
    order of the code is compared with. *)


















(* ================================================================= *)
(** ** Orders used to state the properties *)

(** [x] may stand before [y] in a list sorted with [ltb]: [not (y < x)]. *)
Definition not_after {A : Type} (ltb : A -> A -> bool) (x y : A) : Prop := ltb y x = false.

(** [tok_lt] completed into a total order (texts before numbers where
    Python refuses to compare); it agrees with [tok_lt] wherever Python
    answers. *)
Definition tok_ltb (x y : tok) : bool :=
  match x, y with
  | TInt a, TInt b => Z.ltb a b
  | TStr a, TStr b => str_ltb a b
  | TStr _, TInt _ => true
  | TInt _, TStr _ => false
  end.

Section Lexicographic.
Context {T : Type}.
Variable eqb : T -> T -> bool.
Variable ltb : T -> T -> bool.

Fixpoint lex_ltb (a b : list T) : bool :=
  match a, b with
  | [], [] => false
  | [], _ :: _ => true
  | _ :: _, [] => false
  | x :: a', y :: b' => if eqb x y then lex_ltb a' b' else ltb x y
  end.
End Lexicographic.

Definition key_ltb (a b : list tok) : bool := lex_ltb tok_eqb tok_ltb a b.

Definition char_ltb (x y : ascii) : bool := (nat_of_ascii x <? nat_of_ascii y)%nat.

(** A key in which texts and numbers alternate; [want_str] tells which of
    the two comes first. *)
Fixpoint alternating (want_str : bool) (k : list tok) : bool :=
  match k with
  | [] => true
  | TStr _ :: r => want_str && alternating false r
  | TInt _ :: r => negb want_str && alternating true r
  end.

(** The shape of a key of [natural_sort_key]: at the positions where a text
    is due, a lower-cased text without digits; at the others an integer. *)
Fixpoint natural_shape (want_str : bool) (k : list tok) : Prop :=
  match k with
  | [] => True
  | t :: r =>
      (if want_str
       then exists u, t = TStr u /\ no_digit u = true /\ lower u = u
       else exists n, t = TInt n)
      /\ natural_shape (negb want_str) r
  end.

(** [a] does not come after [b] in natural order: [not (key(b) < key(a))]. *)
Definition natural_le (a b : string) : Prop :=
  key_lt (natural_sort_key b) (natural_sort_key a) = Some false.

Definition natural_ltb (a b : string) : bool :=
  key_ltb (natural_sort_key a) (natural_sort_key b).

Definition chunk_le (a b : json_file) : Prop :=
  (extract_chunk_number (file_name a) <= extract_chunk_number (file_name b))%Z.

Fixpoint pieces_ok (want_text : bool) (l : list string) : bool :=
  match l with
  | [] => true
  | p :: r => (if want_text then no_digit p else isdigit p) && pieces_ok (negb want_text) r
  end.




(* ================================================================= *)
(** ** The assignments behind a flattened record

    [leaf_entries] lists, in the order the positional variant meets them,
    the assignments [items[key] = value] a document gives rise to: one for
    each path from the root to a scalar leaf, with the column name joined
    along that path.  [entries_fuel] is the same list for an arbitrary
    arrangement of the array elements. *)

Section Entries.
Variable arrange : list json -> list (nat * json).

Section EntriesBody.
Variable self : json -> string -> string -> list (string * json).
Variable sep : string.

Definition list_entries (list_key_of : nat -> string) (p : nat * json)
  : list (string * json) :=
  let '(orig_idx, item) := p in
  if is_container item
  then self item (list_key_of orig_idx) sep
  else [(list_key_of orig_idx, item)].

Definition object_entries (parent_key : string) (kv : string * json)
  : list (string * json) :=
  let '(key, value) := kv in
  let new_key := if nonempty parent_key then parent_key ++ sep ++ key else key in
  match value with
  | JObject _ => self value new_key sep
  | JArray l =>
      flat_map (list_entries (fun orig_idx => new_key ++ "_" ++ str_of_nat (orig_idx + 1)))
               (arrange l)
  | _ => [(new_key, value)]
  end.
End EntriesBody.

Fixpoint entries_fuel (fuel : nat) (data : json) (parent_key sep : string)
  : list (string * json) :=
  match fuel with
  | O => []
  | S n =>
      match data with
      | JObject kvs => flat_map (object_entries (entries_fuel n) sep parent_key) kvs
      | JArray l =>
          flat_map
            (list_entries (entries_fuel n) sep
               (fun orig_idx =>
                  if nonempty parent_key
                  then parent_key ++ "_" ++ str_of_nat (orig_idx + 1)
                  else "item_" ++ str_of_nat (orig_idx + 1)))
            (arrange l)
      | _ => [(parent_key, data)]
      end
  end.
End Entries.

Definition leaf_entries (data : json) (parent_key sep : string) : list (string * json) :=
  entries_fuel (@enumerate json) (S (json_depth data)) data parent_key sep.

(** The column names of a document, one for each path to a scalar leaf. *)
Definition leaf_columns (data : json) (parent_key sep : string) : list string :=
  map fst (leaf_entries data parent_key sep).

(** The value of the last assignment to [k] in a sequence of assignments. *)
Fixpoint last_write (k : string) (l : list (string * json)) : option json :=
  match l with
  | [] => None
  | (k', v) :: r =>
      match last_write k r with
      | Some w => Some w
      | None => if String.eqb k' k then Some v else None
      end
  end.

Definition all_scalar (d : dict) : Prop :=
  Forall (fun kv => is_scalar (snd kv) = true) d.

(** Two flatteners that agree on every value of depth below [d]. *)
Definition agree {R : Type} (d : nat) (f g : json -> string -> string -> R) : Prop :=
  forall v k s, json_depth v < d -> f v k s = g v k s.

(** [flatten_json] for an arbitrary arrangement of the array elements. *)
Definition flatten_with (arrange : list json -> list (nat * json))
           (data : json) (parent_key sep : string) : dict :=
  flatten_fuel arrange (S (json_depth data)) data parent_key sep.

Definition entries_with (arrange : list json -> list (nat * json))
           (data : json) (parent_key sep : string) : list (string * json) :=
  entries_fuel arrange (S (json_depth data)) data parent_key sep.

(** The key of the elements of a top-level array (line 43). *)
Definition top_list_key (parent_key : string) (orig_idx : nat) : string :=
  if nonempty parent_key
  then parent_key ++ "_" ++ str_of_nat (orig_idx + 1)
  else "item_" ++ str_of_nat (orig_idx + 1).

(** The key of the elements of an array that is a member of an object
    (line 32). *)
Definition member_list_key (new_key : string) (orig_idx : nat) : string :=
  new_key ++ "_" ++ str_of_nat (orig_idx + 1).

(** [new_key] of line 25. *)
Definition join_key (parent_key sep key : string) : string :=
  if nonempty parent_key then parent_key ++ sep ++ key else key.

(** The invariant of a Python [dict]: no key twice. *)
Definition dict_wf (d : dict) : Prop := NoDup (dict_keys d).

(** The dictionary [d] is what the assignments [tr], made in that order,
    leave behind. *)
Definition represents (d : dict) (tr : list (string * json)) : Prop :=
  dict_wf d /\ forall k, dict_get d k = last_write k tr.

(* ================================================================= *)
(** ** Notions used to state the properties of the job *)

(** The file went through the [try] block without an exception. *)
Definition loaded (f : json_file) : bool :=
  match file_load f with
  | Loaded _ => true
  | _ => false
  end.

(** The file raised an exception that the [except] clause lets through. *)
Definition propagates (f : json_file) : bool :=
  match file_load f with
  | LoadUncaught _ => true
  | _ => false
  end.

Definition parsed (files : list json_file) : list json_file := filter loaded files.

Definition failed (files : list json_file) : list json_file :=
  filter (fun f => negb (loaded f)) files.

(** The flattened record of a file that parsed. *)
Definition record_of (f : json_file) : dict :=
  match process_file f with
  | Return (Some flattened_data) => flattened_data
  | _ => []
  end.

(** The files the loop of the first pass gets through: those before the
    first one that raises an exception the clause lets through. *)
Fixpoint reached (files : list json_file) : list json_file :=
  match files with
  | [] => []
  | f :: r => if propagates f then [] else f :: reached r
  end.

(** The exception that ends the loop of the first pass, if one does. *)
Fixpoint loop_exn (files : list json_file) : option exn :=
  match files with
  | [] => None
  | f :: r =>
      match file_load f with
      | LoadUncaught e => Some (exn_of_uncaught e)
      | _ => loop_exn r
      end
  end.


(** The names added to [all_fieldnames] by the first pass over the files
    of a directory, in the order they were added. *)
Definition names_seen (files : list json_file) : list string :=
  flat_map (fun f => dict_keys (record_of f)) (parsed (sort_by_chunk files)).

(** The Schema the job arrives at when the sort of the names succeeds. *)
Definition schema_of (set_iter : list string -> list string) (files : list json_file)
  : list string :=
  TIME_COLUMN :: stable_sort natural_ltb (set_iter (set_discard (names_seen files) TIME_COLUMN)).

(** The pieces of [s ++ u] from the pieces of [s] and of [u], when [u]
    does not start with a digit: the last piece of [s] and the first of
    [u] are one piece. *)
Definition join_pieces (a b : list string) : list string :=
  (removelast a ++ (last a EmptyString ++ hd EmptyString b)%string :: tl b)%list.

(** The time offset of a file: [calculate_time_offset] of its chunk index. *)
Definition time_offset_of (f : json_file) : Z :=
  calculate_time_offset (extract_chunk_number (file_name f)).

(* ================================================================= *)
(** ** File names of the pipeline

    [chunk_resampled.py] names the chunks of a recording, and
    [run_model.py] names the output it writes for each chunk. *)

Fixpoint zeros (k : nat) : string :=
  match k with
  | O => EmptyString
  | S k' => String "0" (zeros k')
  end.

(** [f"{n:03d}"] for a non-negative [n]: at least three digits. *)
Definition pad3 (n : nat) : string :=
  zeros (3 - String.length (str_of_nat n)) ++ str_of_nat n.

(** [f"{input_file.stem}_chunk_{i+1:03d}.wav"] (chunk_resampled.py, line 53) *)
Definition chunk_wav_name (stem : string) (i : nat) : string :=
  stem ++ "_chunk_" ++ pad3 (i + 1) ++ ".wav".


(* ================================================================= *)
(** ** [chunk_resampled.py]: cutting a recording into chunks

    A recording is the list of its samples.  [chunk_size] is the value of
    [int(chunk_duration * sample_rate)].  What [sf.read], [mkdir] and
    [sf.write] do is given by the environment: [None] for a read that
    raises, [false] for a directory that cannot be made or a file that
    cannot be written.  The result is the list of the files written, in
    order, and the number the function returns. *)

Section Chunker.
Context {sample : Type}.

(** [audio_data[start:stop]] for [0 <= start] *)
Definition slice (audio_data : list sample) (start stop : Z) : list sample :=
  firstn (Z.to_nat (stop - start)) (skipn (Z.to_nat start) audio_data).

(** The chunk the loop extracts at index [i] (lines 46 to 50). *)
Definition chunk_at (audio_data : list sample) (chunk_size : Z) (i : nat) : list sample :=
  let start_sample := (Z.of_nat i * chunk_size)%Z in
  let end_sample := (start_sample + chunk_size)%Z in
  slice audio_data start_sample end_sample.

(** The loop of lines 45 to 57, with the [except] clause of line 62: a
    write that raises ends the function with 0, and what was written stays. *)
Fixpoint write_chunks (audio_data : list sample) (chunk_size : Z) (stem : string)
         (write_ok : string -> bool) (indices : list nat)
         (written : list (string * list sample)) (chunks_created : Z)
  : list (string * list sample) * Z :=
  match indices with
  | [] => (written, chunks_created)
  | i :: rest =>
      let output_filename := chunk_wav_name stem i in
      if write_ok output_filename
      then write_chunks audio_data chunk_size stem write_ok rest
             (written ++ [(output_filename, chunk_at audio_data chunk_size i)])%list
             (chunks_created + 1)%Z
      else (written, 0%Z)
  end.

(** [chunk_audio_file(input_file, output_dir, chunk_duration)] *)
Definition chunk_audio_file (read : option (list sample)) (stem : string)
           (chunk_size : Z) (mkdir_ok : bool) (write_ok : string -> bool)
  : list (string * list sample) * Z :=
  match read with
  | None => ([], 0%Z)
  | Some audio_data =>
      let total_samples := Z.of_nat (List.length audio_data) in
      if (chunk_size =? 0)%Z then ([], 0%Z)  (* ZeroDivisionError *)
      else
        let actual_chunks := (total_samples / chunk_size)%Z in
        if mkdir_ok
        then write_chunks audio_data chunk_size stem write_ok
               (seq 0 (Z.to_nat actual_chunks)) [] 0%Z
        else ([], 0%Z)
  end.

(** One entry of [input_path.rglob(file_pattern)], with what the
    environment makes of it. *)
Record audio_entry : Type := {
  entry_is_file : bool;
  entry_stem : string;
  entry_read : option (list sample);
  entry_mkdir_ok : bool;
  entry_write_ok : string -> bool
}.

Record tree_stats : Type := {
  total_files : Z;
  processed_files : Z;
  total_chunks : Z;
  failed_files : Z
}.

(** The body of the loop of lines 108 to 127. *)
Definition tree_step (chunk_size : Z) (stats : tree_stats) (input_file : audio_entry)
  : tree_stats :=
  if negb (entry_is_file input_file) then stats
  else
    let chunks_created :=
      snd (chunk_audio_file (entry_read input_file) (entry_stem input_file) chunk_size
             (entry_mkdir_ok input_file) (entry_write_ok input_file)) in
    if (0 <? chunks_created)%Z
    then {| total_files := total_files stats;
            processed_files := (processed_files stats + 1)%Z;
            total_chunks := (total_chunks stats + chunks_created)%Z;
            failed_files := failed_files stats |}
    else {| total_files := total_files stats;
            processed_files := processed_files stats;
            total_chunks := total_chunks stats;
            failed_files := (failed_files stats + 1)%Z |}.

(** [process_directory_tree]: [None] is the [ValueError] for an input
    directory that does not exist. *)
Definition process_directory_tree (input_exists : bool) (audio_files : list audio_entry)
           (chunk_size : Z) : option tree_stats :=
  if negb input_exists then None
  else
    let stats := {| total_files := Z.of_nat (List.length audio_files);
                    processed_files := 0; total_chunks := 0; failed_files := 0 |} in
    match audio_files with
    | [] => Some stats
    | _ :: _ => Some (fold_left (tree_step chunk_size) audio_files stats)
    end.
End Chunker.

Definition always_ok (name : string) : bool := true.

(* ================================================================= *)
(** ** [json_to_csv.py]: the converter without flattening

    Its [extract_chunk_number] splits the file name at the underscores;
    its [json_directory_to_csv] reads every file twice, first for the
    keys and then for the rows, and catches [json.JSONDecodeError] and
    [IOError] only: any other exception of a [try] block leaves the
    job. *)

(** [s.split('_')] *)
Fixpoint split_underscore (s : string) : list string :=
  match s with
  | EmptyString => [EmptyString]
  | String c rest =>
      if Ascii.eqb c "_" then EmptyString :: split_underscore rest
      else
        match split_underscore rest with
        | part :: parts => String c part :: parts
        | [] => [String c EmptyString]
        end
  end.

(** [''.join(filter(str.isdigit, chunk_str))] *)
Fixpoint keep_digits (s : string) : string :=
  match s with
  | EmptyString => EmptyString
  | String c rest => if is_digit c then String c (keep_digits rest) else keep_digits rest
  end.

(** The loop of lines 85 to 92 over [parts]: a part ["chunk"] that has a
    part after it with a digit in it ends the search. *)
Fixpoint scan_parts (parts : list string) : option Z :=
  match parts with
  | [] => None
  | part :: rest =>
      match rest with
      | [] => None
      | chunk_str :: _ =>
          if String.eqb part "chunk" then
            let digits := keep_digits chunk_str in
            if nonempty digits then Some (int_of_digits digits) else scan_parts rest
          else scan_parts rest
      end
  end.

(** [extract_chunk_number(filename)] of [json_to_csv.py] *)
Definition extract_chunk_number_split (filename : string) : Z :=
  match scan_parts (split_underscore filename) with
  | Some n => n
  | None =>
      match findall_digits filename with
      | [] => 0%Z
      | numbers => int_of_digits (last numbers EmptyString)
      end
  end.

(** An exception that [json.load] raises and that the [except] clauses
    do not name. *)
Inductive plain_uncaught : Type :=
  | PlainUnicodeDecodeError   (* the file is not text in the encoding of open() *)
  | PlainIntDigitsLimit       (* ValueError: an integer numeral of more digits
                                 than int() converts *)
  | PlainRecursionLimit.      (* RecursionError: a document nested beyond the
                                 recursion limit *)

(** What [json.load] makes of a file: the parsed value, an exception the
    [except] clauses catch, or one they do not catch. *)
Inductive plain_load : Type :=
  | PlainLoaded (data : json)
  | PlainCaught      (* json.JSONDecodeError or IOError *)
  | PlainUncaught (e : plain_uncaught).

Record plain_file : Type := {
  plain_name : string;
  plain_content : plain_load
}.

Inductive plain_exn : Type :=
  | PlainValueError_no_directory
  | PlainValueError_no_json_files
  | PlainAttributeError        (* data.keys() on a value that is no dict *)
  | PlainPropagated (e : plain_uncaught)
  | PlainOSError.              (* from open(output_csv, 'w') *)

Inductive plain_result : Type :=
  | PlainReturn (t : csv_table)
  | PlainRaise (e : plain_exn).

Definition CHUNK_COLUMN : string := "chunk_number".

(** The first loop (lines 38 to 44): the keys added to [all_keys], or the
    exception that ends the job. *)
Fixpoint plain_collect_keys (json_files : list plain_file) (all_keys : list string)
  : list string + plain_exn :=
  match json_files with
  | [] => inl all_keys
  | json_file :: rest =>
      match plain_content json_file with
      | PlainLoaded (JObject members) =>
          plain_collect_keys rest (all_keys ++ map fst members)%list
      | PlainLoaded _ => inr PlainAttributeError
      | PlainCaught => plain_collect_keys rest all_keys
      | PlainUncaught e => inr (PlainPropagated e)
      end
  end.

(** [row_data = {'chunk_number': chunk_number}; row_data.update(data)] *)
Definition plain_row_data (json_file : plain_file) (members : list (string * json)) : dict :=
  dict_update [(CHUNK_COLUMN, JInt (extract_chunk_number_split (plain_name json_file)))]
              members.

(** The second loop (lines 54 to 70), after a first loop that went
    through: one row for each file that loads. *)
Fixpoint plain_write_rows (fieldnames : list string) (json_files : list plain_file)
  : list (list string) :=
  match json_files with
  | [] => []
  | json_file :: rest =>
      match plain_content json_file with
      | PlainLoaded (JObject members) =>
          write_row fieldnames (plain_row_data json_file members)
          :: plain_write_rows fieldnames rest
      | _ => plain_write_rows fieldnames rest
      end
  end.

(** [json_files.sort(key=lambda x: extract_chunk_number(x.name))] *)
Definition plain_sort_by_chunk (json_files : list plain_file) : list plain_file :=
  stable_sort
    (fun a b => (extract_chunk_number_split (plain_name a)
                 <? extract_chunk_number_split (plain_name b))%Z)
    json_files.

(** [sorted(all_keys)] on the enumeration of the set. *)
Definition sorted_keys (set_iter : list string -> list string) (all_keys : list string)
  : list string :=
  stable_sort str_ltb (set_iter all_keys).

(** [json_directory_to_csv(input_directory)] of [json_to_csv.py] *)
Definition plain_directory_to_csv (set_iter : list string -> list string)
           (dir_ok : bool) (glob : list plain_file) (out_ok : bool) : plain_result :=
  if negb dir_ok then PlainRaise PlainValueError_no_directory
  else
    match glob with
    | [] => PlainRaise PlainValueError_no_json_files
    | _ :: _ =>
        let json_files := plain_sort_by_chunk glob in
        match plain_collect_keys json_files [] with
        | inr e => PlainRaise e
        | inl all_keys =>
            let fieldnames := CHUNK_COLUMN :: sorted_keys set_iter all_keys in
            if out_ok
            then PlainReturn {| header := fieldnames;
                                rows := plain_write_rows fieldnames json_files |}
            else PlainRaise PlainOSError
        end
    end.


(** A file the first loop of the plain converter does not get past. *)
Definition plain_fatal (f : plain_file) : bool :=
  match plain_content f with
  | PlainLoaded (JObject _) => false
  | PlainLoaded _ => true
  | PlainCaught => false
  | PlainUncaught _ => true
  end.

(** The members of a file that loaded as an object. *)
Definition plain_members (f : plain_file) : list (string * json) :=
  match plain_content f with
  | PlainLoaded (JObject members) => members
  | _ => []
  end.

Definition plain_is_object (f : plain_file) : bool :=
  match plain_content f with
  | PlainLoaded (JObject _) => true
  | _ => false
  end.

(* ================================================================= *)
(** * Properties *)

(** ** The definitions on the examples of the specification *)

Example re_split_ex1 : re_split_digits "item_10b2" = ["item_"; "10"; "b"; "2"; ""].
Proof. reflexivity. Qed.

Example re_split_ex2 : re_split_digits "12ab" = [""; "12"; "ab"].
Proof. reflexivity. Qed.

Example nsk_ex1 : natural_sort_key "Item_10" = [TStr "item_"; TInt 10; TStr ""].
Proof. reflexivity. Qed.

Example findall_ex1 : findall_digits "a12b3cd045" = ["12"; "3"; "045"].
Proof. reflexivity. Qed.

Example search_ex1 : search_chunk "x_chunk_a_chunk_004_output.json" = Some "004".
Proof. reflexivity. Qed.

Example sort_ex1 : sort_natural ["item_10"; "item_2"; "Item_1"] = Some ["Item_1"; "item_2"; "item_10"].
Proof. reflexivity. Qed.

Example py_str_ex1 :
  py_str (JObject [("a", JArray [JInt 1; JStr "x y"; JNull]); ("b", JBool true)])
  = "{'a': [1, 'x y', None], 'b': True}".
Proof. reflexivity. Qed.

Example repr_str_ex1 :
  repr_str "it's" = String double_quote ("it's" ++ String double_quote EmptyString).
Proof. reflexivity. Qed.

Example flatten_ex_tags :
  flatten_json (JObject [("tags", JArray [JStr "b"; JStr "a"; JStr "c"])]) "" "_"
  = [("tags_2", JStr "a"); ("tags_1", JStr "b"); ("tags_3", JStr "c")].
Proof. reflexivity. Qed.

Example flatten_ex_nested :
  flatten_json
    (JObject [("a", JObject [("b", JInt 1); ("c", JArray [JInt 10; JInt 9; JObject [("d", JNull)]])]);
              ("e", JArray [])]) "" "_"
  = [("a_b", JInt 1); ("a_c_2", JInt 9); ("a_c_1", JInt 10); ("a_c_3_d", JNull)].
Proof. reflexivity. Qed.

Example flatten_ex_toplist :
  flatten_json (JArray [JStr "x10"; JStr "x9"; JArray [JBool true]]) "" "_"
  = [("item_3_1", JBool true); ("item_2", JStr "x9"); ("item_1", JStr "x10")].
Proof. reflexivity. Qed.

Example time_offset_ex1 : calculate_time_offset 1 = 0%Z /\ calculate_time_offset 4 = 3%Z.
Proof. split; reflexivity. Qed.

Example job_end_to_end :
  json_directory_to_csv first_seen
    (mk_dir [bad_file "rec_chunk_003.json";
             mk_file "rec_chunk_002.json" (JObject [("score", JFloat "0.9")]);
             mk_file "rec_chunk_001.json" (JObject [("score", JFloat "0.1")])])
  = (["rec_chunk_003.json"],
     Return {| header := ["5_sec_time_offset"; "score"];
               rows := [["0"; "0.1"]; ["1"; "0.9"]] |}).
Proof. reflexivity. Qed.

Example extract_ex :
  extract_chunk_number "MARS_20180413_065913_resampled_24kHz_chunk_004_output.json" = 4%Z
  /\ extract_chunk_number "segment_017.json" = 17%Z
  /\ extract_chunk_number "nodigits.json" = 0%Z
  /\ extract_chunk_number "chunk7_part2.json" = 2%Z.
Proof. repeat split; reflexivity. Qed.

(* ================================================================= *)
(** ** Lists and sorting *)

Lemma fold_left_ext_in {A B : Type} (f g : A -> B -> A) (l : list B) (a : A) :
  (forall acc x, In x l -> f acc x = g acc x) ->
  fold_left f l a = fold_left g l a.
Proof.
  revert a. induction l as [|x l IH]; intros a H; simpl; [reflexivity|].
  rewrite (H a x (or_introl eq_refl)). apply IH.
  intros acc y Hy. apply H. now right.
Qed.

Section StableSortFacts.
Context {A : Type}.
Variable ltb : A -> A -> bool.

Lemma insert_sorted_perm x l : Permutation (x :: l) (insert_sorted ltb x l).
Proof.
  induction l as [|y r IH]; simpl; [apply Permutation_refl|].
  destruct (ltb y x); [|apply Permutation_refl].
  eapply perm_trans; [apply perm_swap|]. now apply perm_skip.
Qed.

Lemma stable_sort_perm l : Permutation l (stable_sort ltb l).
Proof.
  induction l as [|x r IH]; simpl; [constructor|].
  eapply perm_trans; [|apply insert_sorted_perm]. now apply perm_skip.
Qed.

Lemma stable_sort_In x l : In x (stable_sort ltb l) <-> In x l.
Proof.
  split; apply Permutation_in;
    [apply Permutation_sym|]; apply stable_sort_perm.
Qed.

Lemma stable_sort_length l : List.length (stable_sort ltb l) = List.length l.
Proof. symmetry. apply Permutation_length, stable_sort_perm. Qed.

Hypothesis ltb_asym : forall x y, ltb x y = true -> ltb y x = false.

Lemma insert_sorted_sorted x l :
  Sorted (not_after ltb) l -> Sorted (not_after ltb) (insert_sorted ltb x l).
Proof.
  induction l as [|y r IH]; intros Hs; simpl.
  - repeat constructor.
  - destruct (ltb y x) eqn:E.
    + inversion Hs as [|? ? Hr Hhd]; subst.
      constructor; [now apply IH|].
      destruct r as [|z r']; simpl.
      * constructor. now apply ltb_asym.
      * destruct (ltb z x); constructor.
        -- now inversion Hhd.
        -- now apply ltb_asym.
    + constructor; [assumption|]. now constructor.
Qed.

Lemma stable_sort_sorted l : Sorted (not_after ltb) (stable_sort ltb l).
Proof.
  induction l as [|x r IH]; simpl; [constructor|].
  now apply insert_sorted_sorted.
Qed.
End StableSortFacts.

Section FallibleSortFacts.
Context {A : Type}.
Variable lt : A -> A -> option bool.
Variable ltb : A -> A -> bool.
Hypothesis lt_total : forall x y, lt x y = Some (ltb x y).

Lemma py_insert_total x l : py_insert lt x l = Some (insert_sorted ltb x l).
Proof.
  induction l as [|y r IH]; simpl; [reflexivity|].
  rewrite lt_total. destruct (ltb y x); [|reflexivity]. now rewrite IH.
Qed.

Lemma py_sort_total l : py_sort lt l = Some (stable_sort ltb l).
Proof.
  induction l as [|x r IH]; simpl; [reflexivity|].
  rewrite IH. apply py_insert_total.
Qed.
End FallibleSortFacts.

Lemma StronglySorted_filter {A : Type} (R : A -> A -> Prop) (f : A -> bool) l :
  StronglySorted R l -> StronglySorted R (filter f l).
Proof.
  induction 1 as [|x l Hs IH Hall]; simpl; [constructor|].
  destruct (f x); [|assumption].
  constructor; [assumption|].
  rewrite Forall_forall in *. intros y Hy. apply Hall.
  now apply filter_In in Hy.
Qed.

(** Two sorted enumerations of the same names are the same list, as soon as
    the order separates the names. *)
Lemma sorted_perm_unique {A : Type} (R : A -> A -> Prop) (l1 l2 : list A) :
  (forall x y, In x l1 -> In y l1 -> R x y -> R y x -> x = y) ->
  StronglySorted R l1 -> StronglySorted R l2 -> Permutation l1 l2 -> l1 = l2.
Proof.
  revert l2. induction l1 as [|x l1 IH]; intros l2 Hanti H1 H2 Hp.
  - apply Permutation_nil in Hp. now subst.
  - destruct l2 as [|y l2].
    + apply Permutation_sym, Permutation_nil in Hp. discriminate.
    + inversion H1 as [|? ? H1' Hx]; subst.
      inversion H2 as [|? ? H2' Hy]; subst.
      rewrite Forall_forall in Hx, Hy.
      assert (x = y) as ->.
      { assert (In x (y :: l2)) as Hin1
          by (eapply Permutation_in; [exact Hp|now left]).
        assert (In y (x :: l1)) as Hin2
          by (eapply Permutation_in; [apply Permutation_sym; exact Hp|now left]).
        destruct Hin1 as [->|Hin1]; [reflexivity|].
        destruct Hin2 as [->|Hin2]; [reflexivity|].
        apply Hanti; [now left|now right|now apply Hx|now apply Hy]. }
      f_equal. apply IH; try assumption.
      * intros a b Ha Hb. apply Hanti; now right.
      * eapply Permutation_cons_inv; exact Hp.
Qed.

(* ================================================================= *)
(** ** The order on sort keys *)

Section LexFacts.
Context {T : Type}.
Variable eqb : T -> T -> bool.
Variable ltb : T -> T -> bool.
Hypothesis eqb_eq : forall x y, eqb x y = true <-> x = y.
Hypothesis ltb_irrefl : forall x, ltb x x = false.
Hypothesis ltb_trans : forall x y z, ltb x y = true -> ltb y z = true -> ltb x z = true.
Hypothesis ltb_total : forall x y, x <> y -> ltb x y = false -> ltb y x = true.

Lemma eqb_refl' x : eqb x x = true.
Proof. now apply eqb_eq. Qed.

Lemma eqb_sym' x y : eqb x y = eqb y x.
Proof.
  destruct (eqb x y) eqn:E1, (eqb y x) eqn:E2; try reflexivity.
  - apply eqb_eq in E1. subst. now rewrite eqb_refl' in E2.
  - apply eqb_eq in E2. subst. now rewrite eqb_refl' in E1.
Qed.

Lemma ltb_asym' x y : ltb x y = true -> ltb y x = false.
Proof.
  intros H. destruct (ltb y x) eqn:E; [|reflexivity].
  rewrite <- (ltb_irrefl x). symmetry. now apply ltb_trans with y.
Qed.

Lemma lex_irrefl a : lex_ltb eqb ltb a a = false.
Proof. induction a as [|x a IH]; simpl; [reflexivity|]. now rewrite eqb_refl'. Qed.

Lemma lex_asym a b : lex_ltb eqb ltb a b = true -> lex_ltb eqb ltb b a = false.
Proof.
  revert b. induction a as [|x a IH]; intros [|y b]; simpl; try congruence.
  rewrite (eqb_sym' y x). destruct (eqb x y); [apply IH|apply ltb_asym'].
Qed.

Lemma lex_antisym a b : lex_ltb eqb ltb a b = false -> lex_ltb eqb ltb b a = false -> a = b.
Proof.
  revert b. induction a as [|x a IH]; intros [|y b]; simpl; try congruence.
  rewrite (eqb_sym' y x). destruct (eqb x y) eqn:E.
  - apply eqb_eq in E. subst. intros H1 H2. f_equal. now apply IH.
  - intros H1 H2. assert (x <> y) as Hne by (intros ->; now rewrite eqb_refl' in E).
    apply (ltb_total _ _ Hne) in H1. congruence.
Qed.

(** [a <= b] and [b <= c] give [a <= c]. *)
Lemma lex_le_trans a b c : lex_ltb eqb ltb b a = false -> lex_ltb eqb ltb c b = false -> lex_ltb eqb ltb c a = false.
Proof.
  revert b c. induction a as [|x a IH]; intros [|y b] [|z c]; simpl; try congruence.
  destruct (eqb y x) eqn:Eyx.
  - apply eqb_eq in Eyx. subst y. intros H1.
    destruct (eqb z x) eqn:Ezx; [now apply IH|trivial].
  - intros H1. assert (y <> x) as Hne by (intros ->; now rewrite eqb_refl' in Eyx).
    assert (ltb x y = true) as Hxy by (apply ltb_total; [congruence|assumption]).
    destruct (eqb z y) eqn:Ezy.
    + apply eqb_eq in Ezy. subst z. intros _. now rewrite Eyx.
    + intros H2. assert (z <> y) as Hne2 by (intros ->; now rewrite eqb_refl' in Ezy).
      assert (ltb y z = true) as Hyz by (apply ltb_total; [congruence|assumption]).
      assert (ltb x z = true) as Hxz by (now apply ltb_trans with y).
      destruct (eqb z x) eqn:Ezx.
      * apply eqb_eq in Ezx. subst z. now rewrite ltb_irrefl in Hxz.
      * now apply ltb_asym'.
Qed.


Lemma lex_total a b : a <> b -> lex_ltb eqb ltb a b = false -> lex_ltb eqb ltb b a = true.
Proof.
  intros Hne H. destruct (lex_ltb eqb ltb b a) eqn:E; [reflexivity|].
  exfalso. apply Hne. now apply lex_antisym.
Qed.
End LexFacts.

Lemma nat_of_ascii_inj x y : nat_of_ascii x = nat_of_ascii y -> x = y.
Proof.
  intros H. rewrite <- (ascii_nat_embedding x), <- (ascii_nat_embedding y). now rewrite H.
Qed.

Lemma char_ltb_irrefl x : char_ltb x x = false.
Proof. apply Nat.ltb_irrefl. Qed.

Lemma char_ltb_trans x y z : char_ltb x y = true -> char_ltb y z = true -> char_ltb x z = true.
Proof. unfold char_ltb. rewrite !Nat.ltb_lt. lia. Qed.

Lemma char_ltb_total x y : x <> y -> char_ltb x y = false -> char_ltb y x = true.
Proof.
  unfold char_ltb. rewrite Nat.ltb_lt, Nat.ltb_ge. intros Hne Hle.
  assert (nat_of_ascii x <> nat_of_ascii y) by (intros E; now apply Hne, nat_of_ascii_inj).
  lia.
Qed.

Ltac char_order :=
  solve [apply Ascii.eqb_eq | apply char_ltb_irrefl | apply char_ltb_trans | apply char_ltb_total].

Lemma str_ltb_lex a b :
  str_ltb a b = lex_ltb Ascii.eqb char_ltb (list_ascii_of_string a) (list_ascii_of_string b).
Proof.
  revert b. induction a as [|x a IH]; intros [|y b]; simpl; try reflexivity.
  now rewrite IH.
Qed.

Lemma list_ascii_of_string_inj a b :
  list_ascii_of_string a = list_ascii_of_string b -> a = b.
Proof.
  intros H. rewrite <- (string_of_list_ascii_of_string a), <- (string_of_list_ascii_of_string b).
  now rewrite H.
Qed.



Lemma str_ltb_total a b : a <> b -> str_ltb a b = false -> str_ltb b a = true.
Proof.
  rewrite !str_ltb_lex. intros Hne.
  apply lex_total; try char_order.
  intros E. now apply Hne, list_ascii_of_string_inj.
Qed.

Lemma tok_eqb_eq x y : tok_eqb x y = true <-> x = y.
Proof.
  destruct x as [a|a], y as [b|b]; simpl; try (split; congruence).
  - rewrite Z.eqb_eq. split; congruence.
  - rewrite String.eqb_eq. split; congruence.
Qed.








(** On two keys of the same alternating shape Python's [<] answers, and
    answers as the total order does. *)
Lemma key_lt_alternating w a b :
  alternating w a = true -> alternating w b = true -> key_lt a b = Some (key_ltb a b).
Proof.
  revert w b. induction a as [|x a IH]; intros w [|y b] Ha Hb; simpl; try reflexivity.
  simpl in Ha, Hb.
  destruct x as [n|s], y as [m|t], w; simpl in *; try discriminate.
  - destruct (Z.eqb n m); [now apply (IH true)|reflexivity].
  - destruct (String.eqb s t); [now apply (IH false)|reflexivity].
Qed.

(* ----------------------------------------------------------------- *)
(** *** The shape of [re.split] and of [natural_sort_key] *)

Lemma re_split_digits_pieces s : pieces_ok true (re_split_digits s) = true.
Proof.
  induction s as [|c rest IH]; [reflexivity|].
  simpl. destruct (is_digit c) eqn:Ec.
  - destruct (re_split_digits rest) as [|t tl]; [simpl; now rewrite Ec|].
    destruct t as [|c0 t0].
    + destruct tl as [|d tl']; simpl in *; rewrite Ec; simpl.
      * reflexivity.
      * apply andb_true_iff in IH as [Hd Htl]. rewrite Htl, andb_true_r.
        destruct d; [discriminate|]. exact Hd.
    + simpl in *. now rewrite Ec, IH.
  - destruct (re_split_digits rest) as [|t tl]; simpl in *.
    + now rewrite Ec.
    + rewrite Ec. exact IH.
Qed.

Lemma no_digit_not_isdigit p : no_digit p = true -> isdigit p = false.
Proof.
  destruct p as [|c r]; simpl; [reflexivity|].
  destruct (is_digit c); simpl; congruence.
Qed.

Lemma lower_char_idem c : lower_char (lower_char c) = lower_char c.
Proof. destruct c as [[] [] [] [] [] [] [] []]; reflexivity. Qed.

Lemma is_digit_lower_char c : is_digit (lower_char c) = is_digit c.
Proof. destruct c as [[] [] [] [] [] [] [] []]; reflexivity. Qed.

Lemma lower_idem s : lower (lower s) = lower s.
Proof. induction s as [|c r IH]; simpl; [reflexivity|]. now rewrite lower_char_idem, IH. Qed.

Lemma no_digit_lower s : no_digit (lower s) = no_digit s.
Proof. induction s as [|c r IH]; simpl; [reflexivity|]. now rewrite is_digit_lower_char, IH. Qed.

Lemma natural_key_of_pieces w l :
  pieces_ok w l = true ->
  natural_shape w
    (map (fun text => if isdigit text then TInt (int_of_digits text) else TStr (lower text)) l).
Proof.
  revert w. induction l as [|p r IH]; intros w H; simpl; [exact I|].
  simpl in H. apply andb_true_iff in H as [Hp Hr]. split; [|now apply IH].
  destruct w.
  - rewrite (no_digit_not_isdigit _ Hp). exists (lower p).
    now rewrite no_digit_lower, lower_idem.
  - rewrite Hp. eexists. reflexivity.
Qed.

Lemma natural_sort_key_shape s : natural_shape true (natural_sort_key s).
Proof. apply natural_key_of_pieces, re_split_digits_pieces. Qed.

Lemma natural_shape_alternating w k : natural_shape w k -> alternating w k = true.
Proof.
  revert w. induction k as [|t r IH]; intros w H; simpl; [reflexivity|].
  destruct H as [Ht Hr]. destruct w; simpl in *.
  - destruct Ht as (u & -> & _). now apply (IH false).
  - destruct Ht as (n & ->). now apply (IH true).
Qed.


Lemma natural_key_lt_total a b :
  key_lt (natural_sort_key a) (natural_sort_key b) = Some (natural_ltb a b).
Proof.
  apply (key_lt_alternating true); apply natural_shape_alternating, natural_sort_key_shape.
Qed.

Lemma sort_natural_total l : sort_natural l = Some (stable_sort natural_ltb l).
Proof. apply py_sort_total. intros x y. apply natural_key_lt_total. Qed.

Lemma natural_le_ltb a b : natural_le a b <-> natural_ltb b a = false.
Proof. unfold natural_le. rewrite natural_key_lt_total. split; congruence. Qed.



(* ================================================================= *)
(** ** The order of the code and the order of the specification *)






































(* ================================================================= *)
(** ** The chunk index *)






Lemma isdigit_all_digits d : isdigit d = true -> all_digits d = true.
Proof. destruct d; [discriminate|trivial]. Qed.


















(* ================================================================= *)
(** ** Dictionaries *)

Lemma dict_get_set d k v k' :
  dict_get (dict_set d k v) k' = if String.eqb k k' then Some v else dict_get d k'.
Proof.
  induction d as [|[k0 v0] r IH]; simpl.
  - reflexivity.
  - destruct (String.eqb k0 k) eqn:E0; simpl.
    + apply String.eqb_eq in E0. subst. destruct (String.eqb k k'); reflexivity.
    + rewrite IH. destruct (String.eqb k0 k') eqn:E1; [|reflexivity].
      apply String.eqb_eq in E1. subst. now rewrite String.eqb_sym, E0.
Qed.

Lemma dict_get_update d d' k :
  dict_get (dict_update d d') k =
  match last_write k d' with
  | Some v => Some v
  | None => dict_get d k
  end.
Proof.
  unfold dict_update. revert d. induction d' as [|[k0 v0] r IH]; intros d; simpl.
  - reflexivity.
  - rewrite IH. destruct (last_write k r); [reflexivity|].
    rewrite dict_get_set. now destruct (String.eqb k0 k).
Qed.

Lemma last_write_app k l1 l2 :
  last_write k (l1 ++ l2)%list =
  match last_write k l2 with
  | Some v => Some v
  | None => last_write k l1
  end.
Proof.
  induction l1 as [|[k0 v0] r IH]; simpl.
  - now destruct (last_write k l2).
  - rewrite IH. now destruct (last_write k l2).
Qed.

Lemma dict_set_In d k v kv : In kv (dict_set d k v) -> In kv d \/ kv = (k, v).
Proof.
  induction d as [|[k0 v0] r IH]; simpl.
  - intros [<-|[]]. now right.
  - destruct (String.eqb k0 k) eqn:E; simpl.
    + apply String.eqb_eq in E. subst. intros [<-|H]; [now right|left; now right].
    + intros [<-|H]; [left; now left|].
      destruct (IH H) as [H'|H']; [left; now right|now right].
Qed.

Lemma dict_set_scalar d k v :
  all_scalar d -> is_scalar v = true -> all_scalar (dict_set d k v).
Proof.
  unfold all_scalar. rewrite !Forall_forall. intros Hd Hv kv Hin.
  apply dict_set_In in Hin as [Hin| ->]; [now apply Hd|exact Hv].
Qed.

Lemma dict_update_scalar d d' : all_scalar d -> all_scalar d' -> all_scalar (dict_update d d').
Proof.
  unfold dict_update. revert d. induction d' as [|[k v] r IH]; intros d Hd Hd'; simpl.
  - exact Hd.
  - inversion Hd' as [|? ? Hv Hr]; subst. apply IH; [|exact Hr].
    now apply dict_set_scalar.
Qed.

Lemma dict_set_length d k v : List.length (dict_set d k v) <= S (List.length d).
Proof.
  induction d as [|[k0 v0] r IH]; simpl; [lia|].
  destruct (String.eqb k0 k); simpl; lia.
Qed.

Lemma dict_update_length d d' :
  List.length (dict_update d d') <= List.length d + List.length d'.
Proof.
  unfold dict_update. revert d. induction d' as [|[k v] r IH]; intros d; simpl; [lia|].
  specialize (IH (dict_set d k v)). pose proof (dict_set_length d k v). lia.
Qed.

Lemma dict_update_nil d : dict_update d [] = d.
Proof. reflexivity. Qed.

(* ================================================================= *)
(** ** Nesting depth and enumeration *)

Lemma json_depth_array_In x l : In x l -> json_depth x < json_depth (JArray l).
Proof.
  induction l as [|y r IH]; intros H; [destruct H|].
  simpl in *. destruct H as [->|H]; [lia|]. specialize (IH H). lia.
Qed.

Lemma json_depth_object_In k x kvs : In (k, x) kvs -> json_depth x < json_depth (JObject kvs).
Proof.
  induction kvs as [|[k0 y] r IH]; intros H; [destruct H|].
  simpl in *. destruct H as [E|H]; [injection E as -> ->; lia|].
  specialize (IH H). lia.
Qed.

Lemma enumerate_snd {A : Type} (l : list A) : map snd (enumerate l) = l.
Proof.
  unfold enumerate. generalize 0. induction l as [|x r IH]; intros n; simpl; [reflexivity|].
  now rewrite IH.
Qed.

Lemma enumerate_fst {A : Type} (l : list A) : map fst (enumerate l) = seq 0 (List.length l).
Proof.
  unfold enumerate. generalize 0. induction l as [|x r IH]; intros n; simpl; [reflexivity|].
  now rewrite IH.
Qed.

Lemma natsorted_items_perm l : Permutation (natsorted_items l) (enumerate l).
Proof. apply Permutation_sym, stable_sort_perm. Qed.

Lemma fold_left_inv {A B : Type} (P : A -> Prop) (f : A -> B -> A) (l : list B) (a : A) :
  P a -> (forall acc x, In x l -> P acc -> P (f acc x)) -> P (fold_left f l a).
Proof.
  revert a. induction l as [|x l IH]; intros a Ha H; simpl; [exact Ha|].
  apply IH.
  - apply H; [now left|exact Ha].
  - intros acc y Hy. apply H. now right.
Qed.

Lemma fold_left_length_bound {B : Type} (f : dict -> B -> dict) (c : B -> nat) l a :
  (forall acc x, In x l -> List.length (f acc x) <= List.length acc + c x) ->
  List.length (fold_left f l a) <= List.length a + list_sum (map c l).
Proof.
  revert a. induction l as [|x l IH]; intros a H; simpl; [lia|].
  assert (List.length (fold_left f l (f a x)) <= List.length (f a x) + list_sum (map c l)) as H1
    by (apply IH; intros acc y Hy; apply H; now right).
  pose proof (H a x (or_introl eq_refl)). lia.
Qed.

Lemma list_sum_perm l l' : Permutation l l' -> list_sum l = list_sum l'.
Proof. induction 1; simpl; lia. Qed.

Lemma count_leaves_array l : count_leaves (JArray l) = list_sum (map count_leaves l).
Proof. induction l as [|x r IH]; simpl in *; [reflexivity|]. now rewrite IH. Qed.

Lemma count_leaves_object kvs :
  count_leaves (JObject kvs) = list_sum (map (fun kv => count_leaves (snd kv)) kvs).
Proof. induction kvs as [|[k x] r IH]; simpl in *; [reflexivity|]. now rewrite IH. Qed.

(* ================================================================= *)
(** ** [flatten_json]: the recursion *)

Section FlattenFacts.
Variable arrange : list json -> list (nat * json).
Hypothesis arrange_perm : forall l, Permutation (arrange l) (enumerate l).

Lemma arrange_In l i x : In (i, x) (arrange l) -> In x l.
Proof.
intros H. apply (Permutation_in _ (arrange_perm l)) in H.
unfold enumerate in H. now apply in_combine_r in H.
Qed.

Lemma arrange_leaves l :
list_sum (map (fun p => count_leaves (snd p)) (arrange l)) = count_leaves (JArray l).
Proof.
rewrite count_leaves_array.
transitivity (list_sum (map (fun p : nat * json => count_leaves (snd p)) (enumerate l))).
- apply list_sum_perm, Permutation_map, arrange_perm.
- now rewrite <- (map_map snd count_leaves), enumerate_snd.
Qed.

Lemma list_step_agree d (f g : json -> string -> string -> dict) sep lk acc i item :
agree d f g -> json_depth item < d ->
list_step f sep lk acc (i, item) = list_step g sep lk acc (i, item).
Proof.
intros Hfg Hd. unfold list_step. destruct (is_container item); [|reflexivity].
now rewrite Hfg.
Qed.

Lemma object_step_agree d (f g : json -> string -> string -> dict) sep p acc key value :
agree d f g -> json_depth value < d ->
object_step arrange f sep p acc (key, value) = object_step arrange g sep p acc (key, value).
Proof.
intros Hfg Hd. unfold object_step. destruct value; try reflexivity.
- apply fold_left_ext_in. intros acc' [i item] Hin.
  apply list_step_agree with d; [exact Hfg|].
  apply arrange_In, json_depth_array_In in Hin. lia.
- now rewrite Hfg.
Qed.

Lemma flatten_fuel_agree n m :
agree (Nat.min n m) (flatten_fuel arrange n) (flatten_fuel arrange m).
Proof.
revert m. induction n as [|n IH]; intros m v k s Hd; [simpl in Hd; lia|].
destruct m as [|m]; [simpl in Hd; lia|].
simpl Nat.min in Hd. simpl flatten_fuel.
destruct v; try reflexivity.
- apply fold_left_ext_in. intros acc [i item] Hin.
  apply list_step_agree with (Nat.min n m); [apply IH|].
  apply arrange_In, json_depth_array_In in Hin. lia.
- apply fold_left_ext_in. intros acc [key value] Hin.
  apply object_step_agree with (Nat.min n m); [apply IH|].
  apply json_depth_object_In in Hin. lia.
Qed.

(** Any bound above the depth of the document gives the same record. *)
Lemma flatten_fuel_stable n data p s :
json_depth data < n -> flatten_fuel arrange n data p s = flatten_with arrange data p s.
Proof.
intros H. unfold flatten_with. apply flatten_fuel_agree. lia.
Qed.

Lemma flatten_with_agree n : agree n (flatten_fuel arrange n) (flatten_with arrange).
Proof. intros v k s H. now apply flatten_fuel_stable. Qed.

Lemma flatten_with_object kvs p s :
flatten_with arrange (JObject kvs) p s
= fold_left (object_step arrange (flatten_with arrange) s p) kvs [].
Proof.
unfold flatten_with at 1. simpl flatten_fuel.
apply fold_left_ext_in. intros acc [key value] Hin.
apply object_step_agree with (json_depth (JObject kvs)).
- change (json_depth (JObject kvs)) with (S (pred (json_depth (JObject kvs)))).
  apply flatten_with_agree.
- now apply json_depth_object_In with key.
Qed.

Lemma flatten_with_array l p s :
flatten_with arrange (JArray l) p s
= fold_left (list_step (flatten_with arrange) s (top_list_key p)) (arrange l) [].
Proof.
unfold flatten_with at 1. simpl flatten_fuel.
apply fold_left_ext_in. intros acc [i item] Hin.
apply list_step_agree with (json_depth (JArray l)).
- change (json_depth (JArray l)) with (S (pred (json_depth (JArray l)))).
  apply flatten_with_agree.
- now apply arrange_In, json_depth_array_In in Hin.
Qed.

Lemma flatten_with_scalar v p s :
is_scalar v = true -> flatten_with arrange v p s = [(p, v)].
Proof. destruct v; simpl; intros H; try discriminate; reflexivity. Qed.

(** Every value of the record is a scalar. *)
Lemma flatten_fuel_scalar n data p s : all_scalar (flatten_fuel arrange n data p s).
Proof.
revert data p s. induction n as [|n IH]; intros data p s; [constructor|].
assert (forall lk acc x, all_scalar acc ->
          all_scalar (list_step (flatten_fuel arrange n) s lk acc x)) as Hlist.
{ intros lk acc [i item] Hacc. unfold list_step.
  destruct (is_container item) eqn:E.
  - apply dict_update_scalar; [exact Hacc|apply IH].
  - apply dict_set_scalar; [exact Hacc|]. unfold is_scalar. now rewrite E. }
simpl. destruct data;
  try (constructor; [reflexivity|constructor]).
- apply fold_left_inv; [constructor|]. intros acc x _. apply Hlist.
- apply fold_left_inv; [constructor|]. intros acc [key value] _ Hacc.
  unfold object_step. destruct value;
    try (apply dict_set_scalar; [exact Hacc|reflexivity]).
  + apply fold_left_inv; [exact Hacc|]. intros acc' x _. apply Hlist.
  + apply dict_update_scalar; [exact Hacc|apply IH].
Qed.

(** The record has no more keys than the document has scalar leaves. *)
Lemma flatten_fuel_length n data p s :
List.length (flatten_fuel arrange n data p s) <= count_leaves data.
Proof.
revert data p s. induction n as [|n IH]; intros data p s; [simpl; lia|].
assert (forall lk acc x,
          List.length (list_step (flatten_fuel arrange n) s lk acc x)
          <= List.length acc + count_leaves (snd x)) as Hlist.
{ intros lk acc [i item]. unfold list_step. simpl snd.
  destruct (is_container item) eqn:E.
  - pose proof (dict_update_length acc (flatten_fuel arrange n item (lk i) s)).
    pose proof (IH item (lk i) s). lia.
  - pose proof (dict_set_length acc (lk i) item).
    destruct item; simpl in *; try discriminate; lia. }
assert (forall l lk acc,
          List.length (fold_left (list_step (flatten_fuel arrange n) s lk) (arrange l) acc)
          <= List.length acc + count_leaves (JArray l)) as Harr.
{ intros l lk acc. rewrite <- arrange_leaves.
  apply fold_left_length_bound. intros acc' x _. apply Hlist. }
simpl flatten_fuel. destruct data; try (simpl; lia).
- apply (Harr items _ []).
- rewrite count_leaves_object.
  apply (fold_left_length_bound _ (fun kv => count_leaves (snd kv)) members []).
  intros acc [key value] _. unfold object_step. simpl snd.
  destruct value;
    try (match goal with |- context [dict_set ?a ?k ?v] =>
           pose proof (dict_set_length a k v) end; simpl; lia).
  + apply Harr.
  + match goal with |- context [dict_update ?a ?b] =>
      pose proof (dict_update_length a b) end.
    match goal with |- context [flatten_fuel arrange n ?v ?k s] =>
      pose proof (IH v k s) end.
    lia.
Qed.
End FlattenFacts.

(* ================================================================= *)
(** ** [flatten_json]: scalars, empty containers, arrays of scalars *)

Lemma flatten_json_with data p s : flatten_json data p s = flatten_with natsorted_items data p s.
Proof. reflexivity. Qed.

Lemma flatten_json_positional_with data p s :
  flatten_json_positional data p s = flatten_with (@enumerate json) data p s.
Proof. reflexivity. Qed.

Lemma enumerate_perm_refl (l : list json) : Permutation (enumerate l) (enumerate l).
Proof. apply Permutation_refl. Qed.

Lemma flatten_json_no_leaves e p s : count_leaves e = 0 -> flatten_json e p s = [].
Proof.
  intros H. pose proof (flatten_fuel_length natsorted_items natsorted_items_perm
                          (S (json_depth e)) e p s) as Hl.
  unfold flatten_json. destruct (flatten_fuel _ _ _ _ _); [reflexivity|simpl in Hl; lia].
Qed.

Lemma list_sum_zero l x : list_sum l = 0 -> In x l -> x = 0.
Proof.
  induction l as [|y r IH]; simpl; intros Hs Hin; [destruct Hin|].
  destruct Hin as [->|Hin]; [lia|]. apply IH; [lia|exact Hin].
Qed.

Lemma count_leaves_zero_container e : count_leaves e = 0 -> is_container e = true.
Proof. destruct e; simpl; intros H; try discriminate; reflexivity. Qed.

(** A member without a scalar leaf leaves the record as it is. *)
Lemma object_step_no_leaves sep p acc k e :
  count_leaves e = 0 ->
  object_step natsorted_items flatten_json sep p acc (k, e) = acc.
Proof.
  intros H. unfold object_step. destruct e; simpl in H; try discriminate.
  - apply fold_left_inv; [reflexivity|].
    intros acc' [i item] Hin ->. unfold list_step.
    assert (count_leaves item = 0) as Hitem.
    { apply arrange_In in Hin; [|apply natsorted_items_perm].
      apply (list_sum_zero (map count_leaves items)); [now rewrite <- count_leaves_array|].
      now apply in_map. }
    rewrite (count_leaves_zero_container _ Hitem).
    now rewrite flatten_json_no_leaves.
  - now rewrite flatten_json_no_leaves.
Qed.

(** C7.  For a bare scalar document the only entry of the record has the
    prefix itself as its key: with the empty prefix of the top-level call,
    the empty string. *)
Theorem flatten_json_bare_scalar : forall (v : json) (parent_key sep : string),
  is_scalar v = true ->
  flatten_json v parent_key sep = [(parent_key, v)]
  /\ dict_keys (flatten_json v EmptyString sep) = [EmptyString].
Proof.
  intros v p sep H. split.
  - now apply flatten_with_scalar.
  - now rewrite flatten_json_with, flatten_with_scalar.
Qed.

Lemma flatten_json_bare_scalar_witness :
  flatten_json (JInt 5) EmptyString "_" = [(EmptyString, JInt 5)]
  /\ dict_keys (flatten_json (JInt 5) EmptyString "_") = [EmptyString].
Proof. apply flatten_json_bare_scalar. reflexivity. Defined.

(** C8.  Every value of a flattened record is a scalar.  The record has at
    most one key for each scalar leaf of the document, so what has no
    scalar leaf gives no key: an empty object or array gives the empty
    record under any prefix, and a member of an object without a scalar
    leaf (an empty container, or containers of empty containers) can be
    removed without changing the record. *)
Theorem flatten_json_values_scalar : forall (data : json) (parent_key sep : string),
  (forall k v, In (k, v) (flatten_json data parent_key sep) -> is_scalar v = true)
  /\ List.length (flatten_json data parent_key sep) <= count_leaves data
  /\ flatten_json (JObject []) parent_key sep = []
  /\ flatten_json (JArray []) parent_key sep = []
  /\ (forall e, count_leaves e = 0 -> flatten_json e parent_key sep = [])
  /\ (forall k e pre post,
        count_leaves e = 0 ->
        flatten_json (JObject (pre ++ (k, e) :: post)) parent_key sep
        = flatten_json (JObject (pre ++ post)) parent_key sep).
Proof.
  intros data p sep. repeat split; try reflexivity.
  - intros k v Hin.
    pose proof (flatten_fuel_scalar natsorted_items (S (json_depth data)) data p sep) as H.
    unfold all_scalar in H. rewrite Forall_forall in H. apply (H (k, v) Hin).
  - apply flatten_fuel_length, natsorted_items_perm.
  - intros e. apply flatten_json_no_leaves.
  - intros k e pre post He.
    rewrite (flatten_json_with (JObject (pre ++ (k, e) :: post))),
            (flatten_json_with (JObject (pre ++ post))).
    rewrite (flatten_with_object _ natsorted_items_perm (pre ++ (k, e) :: post)),
            (flatten_with_object _ natsorted_items_perm (pre ++ post)).
    rewrite !fold_left_app. cbn [fold_left].
    change (flatten_with natsorted_items) with flatten_json.
    now rewrite object_step_no_leaves.
Qed.

Lemma flatten_json_values_scalar_witness :
  is_scalar (JInt 1) = true
  /\ flatten_json (JObject [("a", JInt 1); ("e", JArray [JObject []; JArray [JArray []]])])
       EmptyString "_"
     = flatten_json (JObject [("a", JInt 1)]) EmptyString "_".
Proof.
  pose proof (flatten_json_values_scalar
                (JObject [("a", JInt 1); ("e", JArray [JObject []; JArray [JArray []]])])
                EmptyString "_") as (Hs & _ & _ & _ & _ & Hm).
  split.
  - apply (Hs "a"). vm_compute. now left.
  - apply (Hm "e" (JArray [JObject []; JArray [JArray []]]) [("a", JInt 1)] []).
    reflexivity.
Defined.

(* ----------------------------------------------------------------- *)
(** *** Arrays of scalars *)

Lemma str_of_nat_inj n m : str_of_nat n = str_of_nat m -> n = m.
Proof.
  unfold str_of_nat. intros H.
  apply DecimalNat.Unsigned.to_uint_inj.
  assert (Some (Nat.to_uint n) = Some (Nat.to_uint m)) as E
    by (rewrite <- !NilEmpty.usu; now rewrite H).
  now injection E.
Qed.

Lemma append_inj_l p a b : p ++ a = p ++ b -> a = b.
Proof.
  induction p as [|c p IH]; simpl; intros H; [exact H|].
  injection H as H. now apply IH.
Qed.

Lemma member_list_key_inj new_key i j :
  member_list_key new_key i = member_list_key new_key j -> i = j.
Proof.
  unfold member_list_key. intros H.
  apply append_inj_l in H. apply (append_inj_l "_") in H.
  apply str_of_nat_inj in H. lia.
Qed.

Lemma dict_set_fresh d k v : ~ In k (dict_keys d) -> dict_set d k v = (d ++ [(k, v)])%list.
Proof.
  induction d as [|[k0 v0] r IH]; simpl; intros H; [reflexivity|].
  destruct (String.eqb k0 k) eqn:E.
  - apply String.eqb_eq in E. exfalso. apply H. now left.
  - f_equal. apply IH. intros Hin. apply H. now right.
Qed.

Lemma fold_dict_set_fresh (l d : dict) :
  NoDup (dict_keys (d ++ l)%list) ->
  fold_left (fun items kv => dict_set items (fst kv) (snd kv)) l d = (d ++ l)%list.
Proof.
  revert d. induction l as [|[k v] r IH]; intros d H; simpl.
  - now rewrite app_nil_r.
  - replace (d ++ (k, v) :: r)%list with ((d ++ [(k, v)]) ++ r)%list in *
      by (now rewrite <- app_assoc).
    rewrite dict_set_fresh.
    + now apply IH.
    + unfold dict_keys in H. rewrite !map_app in H. simpl in H.
      apply NoDup_app_remove_r in H. apply NoDup_remove_2 in H.
      rewrite app_nil_r in H. exact H.
Qed.

Lemma natsorted_items_scalars xs x :
  Forall (fun v => is_scalar v = true) xs -> In x (natsorted_items xs) ->
  is_container (snd x) = false.
Proof.
  intros Hall Hin. destruct x as [i item].
  apply arrange_In in Hin; [|apply natsorted_items_perm].
  rewrite Forall_forall in Hall. specialize (Hall item Hin).
  unfold is_scalar in Hall. now apply negb_true_iff in Hall.
Qed.





(* ================================================================= *)
(** ** [flatten_json] and the positional variant *)

Lemma dict_set_keys_in d k v : In k (dict_keys d) -> dict_keys (dict_set d k v) = dict_keys d.
Proof.
  induction d as [|[k0 v0] r IH]; simpl; intros H; [destruct H|].
  destruct (String.eqb k0 k) eqn:E; simpl; [reflexivity|].
  f_equal. apply IH. destruct H as [->|H]; [|exact H].
  now rewrite String.eqb_refl in E.
Qed.

Lemma dict_set_wf d k v : dict_wf d -> dict_wf (dict_set d k v).
Proof.
  unfold dict_wf. intros H.
  destruct (in_dec string_dec k (dict_keys d)) as [Hin|Hnin].
  - now rewrite dict_set_keys_in.
  - rewrite dict_set_fresh by exact Hnin. unfold dict_keys. rewrite map_app. simpl.
    apply NoDup_app; [exact H|repeat constructor; intros []|].
    intros x Hx [<-|[]]. now apply Hnin.
Qed.

Lemma dict_update_wf d d' : dict_wf d -> dict_wf (dict_update d d').
Proof.
  unfold dict_update. revert d. induction d' as [|[k v] r IH]; intros d H; simpl; [exact H|].
  apply IH. now apply dict_set_wf.
Qed.

Lemma last_write_None k l : last_write k l = None <-> ~ In k (map fst l).
Proof.
  induction l as [|[k0 v0] r IH]; simpl; [tauto|].
  destruct (last_write k r) eqn:E.
  - split; [discriminate|]. intros H. exfalso. apply H. right.
    destruct (in_dec string_dec k (map fst r)) as [Hin|Hnin]; [exact Hin|].
    apply IH in Hnin. discriminate.
  - destruct (String.eqb k0 k) eqn:E0.
    + apply String.eqb_eq in E0. split; [discriminate|]. intros H. exfalso. apply H. now left.
    + apply String.eqb_neq in E0. split; [|reflexivity].
      intros _ [H|H]; [contradiction|]. now apply IH in H.
Qed.

Lemma last_write_In k v l : last_write k l = Some v -> In (k, v) l.
Proof.
  induction l as [|[k0 v0] r IH]; simpl; [discriminate|].
  destruct (last_write k r) eqn:E.
  - intros H. right. apply IH. exact H.
  - destruct (String.eqb k0 k) eqn:E0; [|discriminate].
    apply String.eqb_eq in E0. subst. intros H. injection H as ->. now left.
Qed.

Lemma last_write_unique k v l : NoDup (map fst l) -> In (k, v) l -> last_write k l = Some v.
Proof.
  induction l as [|[k0 v0] r IH]; simpl; intros Hnd Hin; [destruct Hin|].
  inversion Hnd as [|? ? Hnotin Hnd']; subst.
  destruct Hin as [E|Hin].
  - injection E as -> ->.
    apply last_write_None in Hnotin. rewrite Hnotin. now rewrite String.eqb_refl.
  - now rewrite (IH Hnd' Hin).
Qed.

Lemma dict_get_last_write d k : dict_wf d -> dict_get d k = last_write k d.
Proof.
  unfold dict_wf. induction d as [|[k0 v0] r IH]; simpl; intros H; [reflexivity|].
  inversion H as [|? ? Hnotin Hnd]; subst.
  destruct (String.eqb k0 k) eqn:E.
  - apply String.eqb_eq in E. subst.
    apply last_write_None in Hnotin. now rewrite Hnotin.
  - rewrite (IH Hnd). now destruct (last_write k r).
Qed.

Lemma last_write_perm k l l' :
  NoDup (map fst l') -> Permutation l l' -> last_write k l = last_write k l'.
Proof.
  intros Hnd Hp.
  assert (NoDup (map fst l)) as Hnd0
    by (eapply Permutation_NoDup; [apply Permutation_map, Permutation_sym; exact Hp|exact Hnd]).
  destruct (last_write k l') as [v|] eqn:E.
  - apply last_write_unique; [exact Hnd0|].
    apply last_write_In in E. eapply Permutation_in; [apply Permutation_sym; exact Hp|exact E].
  - apply last_write_None. apply last_write_None in E. intros Hin. apply E.
    eapply Permutation_in; [apply Permutation_map; exact Hp|exact Hin].
Qed.

Lemma represents_nil : represents [] [].
Proof. split; [constructor|reflexivity]. Qed.

Lemma represents_set d tr k v :
  represents d tr -> represents (dict_set d k v) (tr ++ [(k, v)])%list.
Proof.
  intros [Hwf H]. split; [now apply dict_set_wf|].
  intros k'. rewrite dict_get_set, last_write_app. simpl.
  destruct (String.eqb k k'); [reflexivity|apply H].
Qed.

Lemma represents_update d tr d' tr' :
  represents d tr -> represents d' tr' -> represents (dict_update d d') (tr ++ tr')%list.
Proof.
  intros [Hwf H] [Hwf' H']. split; [now apply dict_update_wf|].
  intros k. rewrite dict_get_update, last_write_app.
  rewrite <- (dict_get_last_write d' k Hwf'), H'.
  destruct (last_write k tr'); [reflexivity|apply H].
Qed.

Lemma fold_represents {B : Type} (step : dict -> B -> dict)
      (estep : B -> list (string * json)) (l : list B) acc tr :
  (forall acc tr x, In x l -> represents acc tr -> represents (step acc x) (tr ++ estep x)%list) ->
  represents acc tr ->
  represents (fold_left step l acc) (tr ++ flat_map estep l)%list.
Proof.
  revert acc tr. induction l as [|x r IH]; intros acc tr Hstep H; simpl.
  - now rewrite app_nil_r.
  - rewrite app_assoc. apply IH.
    + intros acc' tr' y Hy. apply Hstep. now right.
    + apply Hstep; [now left|exact H].
Qed.

Lemma flat_map_perm_ext {A B : Type} (f g : A -> list B) l :
  (forall x, In x l -> Permutation (f x) (g x)) ->
  Permutation (flat_map f l) (flat_map g l).
Proof.
  induction l as [|x r IH]; intros H; simpl; [constructor|].
  apply Permutation_app; [apply H; now left|].
  apply IH. intros y Hy. apply H. now right.
Qed.

Section EntriesFacts.
Variable arrange : list json -> list (nat * json).
Hypothesis arrange_perm : forall l, Permutation (arrange l) (enumerate l).

(** The record is what the assignments leave behind. *)
Lemma flatten_fuel_represents n data p s :
represents (flatten_fuel arrange n data p s) (entries_fuel arrange n data p s).
Proof.
revert data p s. induction n as [|n IH]; intros data p s; [apply represents_nil|].
assert (forall lk acc tr x,
          represents acc tr ->
          represents (list_step (flatten_fuel arrange n) s lk acc x)
                     (tr ++ list_entries (entries_fuel arrange n) s lk x)%list) as Hlist.
{ intros lk acc tr [i item] H. unfold list_step, list_entries.
  destruct (is_container item).
  - apply represents_update; [exact H|apply IH].
  - now apply represents_set. }
simpl. destruct data;
  try (apply (represents_set [] [] p _ represents_nil)).
- apply (fold_represents _ _ _ [] []); [|apply represents_nil].
  intros acc tr x _. apply Hlist.
- apply (fold_represents _ _ _ [] []); [|apply represents_nil].
  intros acc tr [key value] _ H. unfold object_step, object_entries.
  destruct value; try (now apply represents_set).
  + apply fold_represents; [|exact H]. intros acc' tr' x _. apply Hlist.
  + apply represents_update; [exact H|apply IH].
Qed.

(** Rearranging the arrays rearranges the assignments. *)
Lemma entries_fuel_perm n data p s :
Permutation (entries_fuel arrange n data p s) (entries_fuel (@enumerate json) n data p s).
Proof.
revert data p s. induction n as [|n IH]; intros data p s; [constructor|].
assert (forall lk l,
          Permutation
            (flat_map (list_entries (entries_fuel arrange n) s lk) (arrange l))
            (flat_map (list_entries (entries_fuel (@enumerate json) n) s lk) (enumerate l)))
  as Harr.
{ intros lk l.
  eapply perm_trans; [apply Permutation_flat_map, arrange_perm|].
  apply flat_map_perm_ext. intros [i item] _. unfold list_entries.
  destruct (is_container item); [apply IH|apply Permutation_refl]. }
simpl. destruct data; try apply Permutation_refl.
- apply Harr.
- apply flat_map_perm_ext. intros [key value] _. unfold object_entries.
  destruct value; try apply Permutation_refl.
  + apply Harr.
  + apply IH.
Qed.
End EntriesFacts.

Lemma dict_In_get d k v : dict_wf d -> (In (k, v) d <-> dict_get d k = Some v).
Proof.
  intros H. rewrite (dict_get_last_write d k H). split.
  - now apply last_write_unique.
  - apply last_write_In.
Qed.

(** C9.  When no two paths of the document give the same column name, the
    record of [flatten_json] and the record of the variant that walks
    every array in positional order hold the same value under every key,
    and hence the same entries: the natural ordering of the array elements
    can only change the order in which the entries were inserted. *)
Theorem flatten_json_refines_positional : forall (data : json) (parent_key sep : string),
  NoDup (leaf_columns data parent_key sep) ->
  (forall k, dict_get (flatten_json data parent_key sep) k
             = dict_get (flatten_json_positional data parent_key sep) k)
  /\ (forall k v, In (k, v) (flatten_json data parent_key sep)
                  <-> In (k, v) (flatten_json_positional data parent_key sep)).
Proof.
  intros data p sep Hnd.
  pose proof (flatten_fuel_represents natsorted_items (S (json_depth data)) data p sep)
    as [Hwf1 H1].
  pose proof (flatten_fuel_represents (@enumerate json) (S (json_depth data)) data p sep)
    as [Hwf2 H2].
  assert (forall k, dict_get (flatten_json data p sep) k
                    = dict_get (flatten_json_positional data p sep) k) as Hget.
  { intros k. unfold flatten_json, flatten_json_positional. rewrite H1, H2.
    apply last_write_perm; [exact Hnd|].
    apply entries_fuel_perm, natsorted_items_perm. }
  split; [exact Hget|].
  intros k v. rewrite (dict_In_get _ k v Hwf1), (dict_In_get _ k v Hwf2).
  unfold flatten_json, flatten_json_positional in Hget. now rewrite Hget.
Qed.

Lemma flatten_json_refines_positional_witness :
  dict_get (flatten_json (JObject [("tags", JArray [JStr "b"; JStr "a"; JStr "c"])])
              EmptyString "_") "tags_1"
  = dict_get (flatten_json_positional (JObject [("tags", JArray [JStr "b"; JStr "a"; JStr "c"])])
                EmptyString "_") "tags_1".
Proof.
  apply (proj1 (flatten_json_refines_positional
                  (JObject [("tags", JArray [JStr "b"; JStr "a"; JStr "c"])])
                  EmptyString "_"
                  ltac:(vm_compute; repeat constructor; simpl; intuition discriminate))).
Defined.

(* ================================================================= *)
(** ** The job *)

Lemma first_pass_reached files names recs warns :
  first_pass files (names, recs, warns)
  = (((names ++ flat_map (fun f => dict_keys (record_of f)) (parsed (reached files)))%list,
      (recs ++ map record_of (parsed (reached files)))%list,
      (warns ++ map file_name (failed (reached files)))%list),
     loop_exn files).
Proof.
  revert names recs warns. induction files as [|f r IH]; intros names recs warns.
  - simpl. now rewrite !app_nil_r.
  - cbn [first_pass reached loop_exn]. unfold propagates, process_file.
    destruct (file_load f) as [data| |e] eqn:E.
    + rewrite IH. unfold parsed, failed, record_of, process_file, loaded.
      cbn [filter]. rewrite E. cbn [negb flat_map map]. rewrite E.
      now rewrite <- !app_assoc.
    + rewrite IH. unfold parsed, failed, loaded.
      cbn [filter]. rewrite E. cbn [negb flat_map map].
      now rewrite <- !app_assoc.
    + simpl. now rewrite !app_nil_r.
Qed.

Lemma loop_exn_None files :
  loop_exn files = None <-> forall f, In f files -> propagates f = false.
Proof.
  induction files as [|f r IH]; simpl.
  - split; [intros _ f []|reflexivity].
  - unfold propagates at 1. destruct (file_load f) eqn:E.
    + rewrite IH. split.
      * intros H g [<-|Hg]; [unfold propagates; now rewrite E|now apply H].
      * intros H g Hg. apply H. now right.
    + rewrite IH. split.
      * intros H g [<-|Hg]; [unfold propagates; now rewrite E|now apply H].
      * intros H g Hg. apply H. now right.
    + split; [discriminate|]. intros H. specialize (H f (or_introl eq_refl)).
      unfold propagates in H. rewrite E in H. discriminate H.
Qed.

Lemma reached_all files : loop_exn files = None -> reached files = files.
Proof.
  induction files as [|f r IH]; [reflexivity|]. cbn [loop_exn reached]. unfold propagates.
  destruct (file_load f); try discriminate; intros H; now rewrite (IH H).
Qed.

Lemma loop_exn_perm files files' :
  Permutation files files' -> loop_exn files = None -> loop_exn files' = None.
Proof.
  rewrite !loop_exn_None. intros Hp H f Hf. apply H.
  now apply (Permutation_in _ (Permutation_sym Hp)).
Qed.

Lemma parsed_failed_length files :
  List.length files = List.length (parsed files) + List.length (failed files).
Proof.
  unfold parsed, failed. induction files as [|f r IH]; [reflexivity|].
  cbn [filter List.length]. destruct (loaded f); cbn [negb List.length]; lia.
Qed.

Lemma parsed_length files :
  List.length (parsed files) = List.length files - List.length (failed files).
Proof. pose proof (parsed_failed_length files). lia. Qed.

Lemma filter_perm {A : Type} (f : A -> bool) l l' :
  Permutation l l' -> Permutation (filter f l) (filter f l').
Proof.
  induction 1 as [|x l l' Hp IH|x y l|l l' l'' H1 IH1 H2 IH2]; simpl.
  - constructor.
  - destruct (f x); [now constructor|exact IH].
  - destruct (f x), (f y); try apply Permutation_refl. apply perm_swap.
  - now apply perm_trans with (filter f l').
Qed.

Lemma sort_by_chunk_perm files : Permutation files (sort_by_chunk files).
Proof. apply stable_sort_perm. Qed.

Lemma parsed_sorted_perm files : Permutation (parsed (sort_by_chunk files)) (parsed files).
Proof. apply filter_perm, Permutation_sym, sort_by_chunk_perm. Qed.

Lemma chunk_le_trans : Relations_1.Transitive chunk_le.
Proof. intros a b c. unfold chunk_le. lia. Qed.

Lemma Sorted_impl {A : Type} (R R' : A -> A -> Prop) l :
  (forall a b, R a b -> R' a b) -> Sorted R l -> Sorted R' l.
Proof.
  intros H. induction 1 as [|x l Hs IH Hhd]; constructor; [exact IH|].
  destruct Hhd; constructor. now apply H.
Qed.

Lemma sort_by_chunk_sorted files : StronglySorted chunk_le (sort_by_chunk files).
Proof.
  apply Sorted_StronglySorted; [apply chunk_le_trans|].
  pose proof (stable_sort_sorted
                (fun a b => (extract_chunk_number (file_name a)
                             <? extract_chunk_number (file_name b))%Z)) as H.
  eapply Sorted_impl; [|apply H].
  - intros a b Hab. unfold not_after in Hab. apply Z.ltb_ge in Hab. exact Hab.
  - intros x y Hxy. apply Z.ltb_lt in Hxy. apply Z.ltb_ge. lia.
Qed.




(** The job, with the first pass and the sort of the names carried out. *)
Lemma json_directory_to_csv_unfold set_iter d :
  json_directory_to_csv set_iter d =
  if negb (dir_exists d) || negb (dir_is_dir d) then ([], Raise ValueError_no_directory)
  else
    match dir_glob d with
    | [] => ([], Raise ValueError_no_json_files)
    | _ :: _ =>
        let files := sort_by_chunk (dir_glob d) in
        match loop_exn files with
        | Some e => (map file_name (failed (reached files)), Raise e)
        | None =>
            let warnings := map file_name (failed files) in
            match parsed files with
            | [] => (warnings, Raise ValueError_no_valid_json)
            | _ :: _ =>
                if out_writable d
                then (warnings,
                      Return {| header := schema_of set_iter (dir_glob d);
                                rows := map (fun f => write_row (schema_of set_iter (dir_glob d))
                                                                (record_of f))
                                            (parsed files) |})
                else (warnings, Raise OSError)
            end
        end
    end.
Proof.
  unfold json_directory_to_csv.
  destruct (negb (dir_exists d) || negb (dir_is_dir d)); [reflexivity|].
  destruct (dir_glob d) as [|f0 fs] eqn:Eg; [reflexivity|].
  rewrite first_pass_reached. cbv beta iota zeta. rewrite !app_nil_l.
  destruct (loop_exn (sort_by_chunk (f0 :: fs))) as [e|] eqn:El; [reflexivity|].
  rewrite (reached_all _ El).
  destruct (parsed (sort_by_chunk (f0 :: fs))) as [|g gs] eqn:Ep; [reflexivity|].
  cbn [map]. rewrite sort_natural_total.
  unfold schema_of, names_seen. rewrite Ep.
  destruct (out_writable d); [|reflexivity].
  cbn [map]. rewrite map_map. reflexivity.
Qed.

Lemma first_seen_In x names : In x (first_seen names) <-> In x names.
Proof.
  induction names as [|a r IH]; simpl; [tauto|].
  rewrite filter_In, IH, negb_true_iff, String.eqb_neq.
  destruct (string_dec a x) as [->|Hne]; [tauto|].
  split; [tauto|]. intros [H|H]; [contradiction|]. right. split; [exact H|congruence].
Qed.

Lemma first_seen_ok : set_iter_ok first_seen.
Proof.
  intros names. split; [|intros x; apply first_seen_In].
  induction names as [|a r IH]; simpl; constructor.
  - rewrite filter_In, negb_true_iff, String.eqb_neq. tauto.
  - now apply NoDup_filter.
Qed.



Lemma parsed_In f files : In f (parsed files) <-> In f files /\ loaded f = true.
Proof. apply filter_In. Qed.




(** What the job wrote, when it returns. *)
Lemma json_directory_to_csv_return set_iter d w t :
  json_directory_to_csv set_iter d = (w, Return t) ->
  header t = schema_of set_iter (dir_glob d)
  /\ rows t = map (fun f => write_row (header t) (record_of f))
                  (parsed (sort_by_chunk (dir_glob d))).
Proof.
  rewrite json_directory_to_csv_unfold.
  destruct (negb (dir_exists d) || negb (dir_is_dir d)); [discriminate|].
  destruct (dir_glob d) as [|f0 fs]; [discriminate|]. cbv zeta.
  destruct (loop_exn (sort_by_chunk (f0 :: fs))); [discriminate|].
  destruct (parsed (sort_by_chunk (f0 :: fs))) as [|g gs] eqn:Ep; [discriminate|].
  destruct (out_writable d); [|discriminate].
  intros H. split; injection H as _ <-; reflexivity.
Qed.

Lemma names_seen_In c files :
  In c (names_seen files) <->
  exists f, In f files /\ loaded f = true /\ In c (dict_keys (record_of f)).
Proof.
  unfold names_seen. rewrite in_flat_map. split.
  - intros (f & Hf & Hc). exists f.
    apply (Permutation_in _ (parsed_sorted_perm files)) in Hf.
    apply parsed_In in Hf as [Hf Hl]. now repeat split.
  - intros (f & Hf & Hl & Hc). exists f. split; [|exact Hc].
    apply (Permutation_in _ (Permutation_sym (parsed_sorted_perm files))).
    now apply parsed_In.
Qed.

Lemma schema_rest_In set_iter files c :
  set_iter_ok set_iter ->
  (In c (stable_sort natural_ltb (set_iter (set_discard (names_seen files) TIME_COLUMN)))
   <-> c <> TIME_COLUMN /\ In c (names_seen files)).
Proof.
  intros Hok. rewrite stable_sort_In. destruct (Hok (set_discard (names_seen files) TIME_COLUMN))
    as [_ Hin]. rewrite Hin. unfold set_discard.
  rewrite filter_In, negb_true_iff, String.eqb_neq. tauto.
Qed.




Lemma write_row_missing fieldnames record :
  Forall2 (fun col cell => dict_get record col = None -> cell = EmptyString)
          fieldnames (write_row fieldnames record).
Proof.
  unfold write_row. induction fieldnames as [|c r IH]; simpl; constructor; [|exact IH].
  intros ->. reflexivity.
Qed.

(** C6.  When the job returns, the table has one row for each file that
    loaded: as many rows as there are files less those that failed.  The
    rows are those of the loaded files taken in ascending order of their
    chunk index, and in each row the cell of a column the record lacks is
    the empty string. *)
Theorem job_rows :
  forall (set_iter : list string -> list string) (d : directory)
         (w : list string) (t : csv_table),
  json_directory_to_csv set_iter d = (w, Return t) ->
  let sources := parsed (sort_by_chunk (dir_glob d)) in
  List.length (rows t) = List.length (dir_glob d) - List.length (failed (dir_glob d))
  /\ Permutation sources (parsed (dir_glob d))
  /\ StronglySorted chunk_le sources
  /\ rows t = map (fun f => write_row (header t) (record_of f)) sources
  /\ (forall f, In f sources ->
        Forall2 (fun col cell => dict_get (record_of f) col = None -> cell = EmptyString)
                (header t) (write_row (header t) (record_of f))).
Proof.
  intros set_iter d w t Ht sources.
  apply json_directory_to_csv_return in Ht as [_ Hr].
  split; [|split; [|split; [|split]]].
  - rewrite Hr, length_map, <- parsed_length.
    apply Permutation_length, parsed_sorted_perm.
  - apply parsed_sorted_perm.
  - apply StronglySorted_filter, sort_by_chunk_sorted.
  - exact Hr.
  - intros f _. apply write_row_missing.
Qed.

Lemma job_rows_witness :
  List.length [["1"; "7"; ""]; ["2"; ""; "8"]] = 3 - 1.
Proof.
  apply (proj1 (job_rows first_seen
                  (mk_dir [mk_file "rec_chunk_003.json" (JObject [("y", JInt 8)]);
                           bad_file "rec_chunk_001.json";
                           mk_file "rec_chunk_002.json" (JObject [("x", JInt 7)])])
                  ["rec_chunk_001.json"]
                  {| header := ["5_sec_time_offset"; "x"; "y"];
                     rows := [["1"; "7"; ""]; ["2"; ""; "8"]] |} eq_refl)).
Defined.






(* ================================================================= *)
(** ** More on [natural_sort_key] *)

Lemma lower_nonempty t : nonempty (lower t) = nonempty t.
Proof. now destruct t. Qed.

Lemma re_split_digits_lower s :
  re_split_digits (lower s) = map lower (re_split_digits s).
Proof.
  induction s as [|c rest IH]; [reflexivity|].
  cbn [lower re_split_digits]. rewrite is_digit_lower_char, IH.
  destruct (is_digit c) eqn:Ec.
  - assert (lower_char c = c) as Hlc
      by (revert Ec; destruct c as [[] [] [] [] [] [] [] []]; intros Ec;
          try discriminate Ec; reflexivity).
    rewrite Hlc.
    destruct (re_split_digits rest) as [|t tl]; [simpl; now rewrite Hlc|].
    destruct t as [|c0 t0]; [|simpl; now rewrite Hlc].
    destruct tl as [|d tl']; simpl; now rewrite Hlc.
  - destruct (re_split_digits rest) as [|t tl]; reflexivity.
Qed.

Lemma all_digits_lower t : all_digits t = true -> lower t = t.
Proof.
  induction t as [|c r IH]; simpl; intros H; [reflexivity|].
  apply andb_true_iff in H as [Hc Hr]. rewrite (IH Hr). f_equal.
  revert Hc. destruct c as [[] [] [] [] [] [] [] []]; intros Hc;
    try discriminate Hc; reflexivity.
Qed.

Lemma all_digits_lower_eq t : all_digits (lower t) = all_digits t.
Proof. induction t as [|c r IH]; simpl; [reflexivity|]. now rewrite is_digit_lower_char, IH. Qed.

Lemma isdigit_lower t : isdigit (lower t) = isdigit t.
Proof. destruct t as [|c r]; [reflexivity|]. apply (all_digits_lower_eq (String c r)). Qed.

Lemma natural_sort_key_lower s : natural_sort_key (lower s) = natural_sort_key s.
Proof.
  unfold natural_sort_key. rewrite re_split_digits_lower, map_map.
  apply map_ext. intros t. rewrite isdigit_lower.
  destruct (isdigit t) eqn:E.
  - now rewrite (all_digits_lower t (isdigit_all_digits t E)).
  - now rewrite lower_idem.
Qed.

(** X1.  The natural-sort key does not see the case of ASCII letters: two
    names that are equal once lower-cased have the same key, so neither
    comes before the other in natural order. *)
Theorem natural_sort_key_ignores_case : forall a b : string,
  lower a = lower b ->
  natural_sort_key a = natural_sort_key b
  /\ natural_le a b /\ natural_le b a.
Proof.
  intros a b H.
  assert (natural_sort_key a = natural_sort_key b) as E
    by (rewrite <- (natural_sort_key_lower a), <- (natural_sort_key_lower b); now rewrite H).
  split; [exact E|].
  rewrite !natural_le_ltb. unfold natural_ltb. rewrite E.
  split; apply lex_irrefl; apply tok_eqb_eq.
Qed.

Lemma natural_sort_key_ignores_case_witness :
  natural_sort_key "Score_1" = natural_sort_key "score_1".
Proof. apply (proj1 (natural_sort_key_ignores_case "Score_1" "score_1" eq_refl)). Defined.

(* ----------------------------------------------------------------- *)
(** *** Decimal numerals *)






(* ----------------------------------------------------------------- *)
(** *** The pieces of a concatenation *)


Lemma join_pieces_cons x y tl b :
  join_pieces (x :: y :: tl) b = x :: join_pieces (y :: tl) b.
Proof. reflexivity. Qed.









(* ================================================================= *)
(** ** More on [flatten_json] *)

Lemma enumerate_from_In {A : Type} (l : list A) (start i : nat) (x : A) :
  In (i, x) (combine (seq start (List.length l)) l)
  <-> start <= i /\ nth_error l (i - start) = Some x.
Proof.
  revert start. induction l as [|y r IH]; intros start; simpl.
  - split; [intros []|]. intros [_ H]. destruct (i - start); discriminate H.
  - rewrite IH. split.
    + intros [E|[Hle H]].
      * injection E as <- <-. split; [lia|]. now rewrite Nat.sub_diag.
      * split; [lia|]. replace (i - start) with (S (i - S start)) by lia. exact H.
    + intros [Hle H]. destruct (i - start) as [|m] eqn:E.
      * left. injection H as ->. f_equal. lia.
      * right. split; [lia|]. replace (i - S start) with m by lia. exact H.
Qed.

Lemma enumerate_In {A : Type} (l : list A) (i : nat) (x : A) :
  In (i, x) (enumerate l) <-> nth_error l i = Some x.
Proof.
  unfold enumerate. rewrite enumerate_from_In, Nat.sub_0_r.
  split; [now intros [_ H]|intros H; split; [lia|exact H]].
Qed.

Section StepFacts.
Variable arrange : list json -> list (nat * json).
Variable self : json -> string -> string -> dict.
Variable eself : json -> string -> string -> list (string * json).
Variable sep : string.
Hypothesis self_represents : forall v p, represents (self v p sep) (eself v p sep).

Lemma list_step_represents lk acc tr x :
  represents acc tr ->
  represents (list_step self sep lk acc x) (tr ++ list_entries eself sep lk x)%list.
Proof.
  destruct x as [i item]. intros H. unfold list_step, list_entries.
  destruct (is_container item).
  - apply represents_update; [exact H|apply self_represents].
  - now apply represents_set.
Qed.

Lemma object_step_represents p acc tr kv :
  represents acc tr ->
  represents (object_step arrange self sep p acc kv)
             (tr ++ object_entries arrange eself sep p kv)%list.
Proof.
  destruct kv as [key value]. intros H. unfold object_step, object_entries.
  destruct value; try (now apply represents_set).
  - apply fold_represents; [|exact H]. intros acc' tr' x _. apply list_step_represents.
  - apply represents_update; [exact H|apply self_represents].
Qed.
End StepFacts.

Lemma flatten_with_represents arrange data p s :
  (forall l, Permutation (arrange l) (enumerate l)) ->
  represents (flatten_with arrange data p s) (entries_with arrange data p s).
Proof. intros H. now apply flatten_fuel_represents. Qed.

Lemma dict_update_empty d : dict_wf d -> dict_update [] d = d.
Proof. intros H. unfold dict_update. now apply (fold_dict_set_fresh d []). Qed.

Lemma flatten_json_wf data p s : dict_wf (flatten_json data p s).
Proof. apply (flatten_with_represents natsorted_items data p s natsorted_items_perm). Qed.

(** X3.  Nesting is prefixing: an object whose only member is an object
    flattens to what the inner object flattens to under the joined key,
    and an object whose only member is a scalar to that one entry. *)
Theorem flatten_json_nested_object :
  forall (key : string) (inner : list (string * json)) (v : json) (parent_key sep : string),
  flatten_json (JObject [(key, JObject inner)]) parent_key sep
  = flatten_json (JObject inner) (join_key parent_key sep key) sep
  /\ (is_scalar v = true ->
      flatten_json (JObject [(key, v)]) parent_key sep = [(join_key parent_key sep key, v)]).
Proof.
  intros key inner v p sep. split.
  - rewrite (flatten_json_with (JObject [(key, JObject inner)])).
    rewrite (flatten_with_object _ natsorted_items_perm).
    cbn [fold_left]. unfold object_step.
    change (flatten_with natsorted_items) with flatten_json.
    apply dict_update_empty, flatten_json_wf.
  - intros Hv. rewrite (flatten_json_with (JObject [(key, v)])).
    rewrite (flatten_with_object _ natsorted_items_perm).
    cbn [fold_left]. unfold object_step.
    destruct v; try discriminate Hv; reflexivity.
Qed.

Lemma flatten_json_nested_object_witness :
  flatten_json (JObject [("a", JBool true)]) "p" "_" = [("p_a", JBool true)].
Proof.
  apply (proj2 (flatten_json_nested_object "a" [] (JBool true) "p" "_")). reflexivity.
Defined.

(** X4.  Last write wins across the members of an object: the value of a
    column in the record of an object is the one the later members give
    it, if they give it any, and otherwise the one the earlier members
    give it. *)
Theorem flatten_json_members_merge :
  forall (kvs1 kvs2 : list (string * json)) (parent_key sep k : string),
  dict_get (flatten_json (JObject (kvs1 ++ kvs2)) parent_key sep) k
  = match dict_get (flatten_json (JObject kvs2) parent_key sep) k with
    | Some v => Some v
    | None => dict_get (flatten_json (JObject kvs1) parent_key sep) k
    end.
Proof.
  intros kvs1 kvs2 p sep k.
  assert (forall v q, represents (flatten_json v q sep) (entries_with natsorted_items v q sep))
    as Hself by (intros v q; apply flatten_with_represents, natsorted_items_perm).
  assert (forall kvs acc tr,
            represents acc tr ->
            represents (fold_left (object_step natsorted_items flatten_json sep p) kvs acc)
                       (tr ++ flat_map (object_entries natsorted_items
                                          (entries_with natsorted_items) sep p) kvs)%list)
    as Hfold.
  { intros kvs acc tr H. apply fold_represents; [|exact H].
    intros acc' tr' x _. now apply object_step_represents. }
  rewrite (flatten_json_with (JObject (kvs1 ++ kvs2))),
          (flatten_json_with (JObject kvs1)), (flatten_json_with (JObject kvs2)).
  rewrite !(flatten_with_object _ natsorted_items_perm), fold_left_app.
  change (flatten_with natsorted_items) with flatten_json.
  pose proof (Hfold kvs1 [] [] represents_nil) as H1.
  pose proof (Hfold kvs2 [] [] represents_nil) as H2.
  pose proof (Hfold kvs2 _ _ H1) as H12.
  destruct H1 as [_ H1], H2 as [_ H2], H12 as [_ H12].
  rewrite H12, H2, H1, last_write_app. reflexivity.
Qed.

Lemma top_list_key_inj p i j : top_list_key p i = top_list_key p j -> i = j.
Proof.
  unfold top_list_key. destruct (nonempty p); intros H.
  - now apply (member_list_key_inj p).
  - apply (append_inj_l "item_") in H. apply str_of_nat_inj in H. lia.
Qed.

(** The record of an array of scalars, looked up at the key of a position. *)
Lemma array_of_scalars_lookup (self : json -> string -> string -> dict)
      (sep : string) (lk : nat -> string) (xs : list json) (i : nat) :
  (forall a b, lk a = lk b -> a = b) ->
  Forall (fun x => is_scalar x = true) xs ->
  dict_get (fold_left (list_step self sep lk) (natsorted_items xs) []) (lk i)
  = nth_error xs i.
Proof.
  intros Hinj Hall.
  set (estep := fun x : nat * json => [(lk (fst x), snd x)]).
  assert (represents (fold_left (list_step self sep lk) (natsorted_items xs) [])
                     ([] ++ flat_map estep (natsorted_items xs))%list) as [_ H].
  { apply fold_represents; [|apply represents_nil].
    intros acc tr [a item] Hin Hacc. unfold list_step.
    pose proof (natsorted_items_scalars xs (a, item) Hall Hin) as Hsc.
    simpl snd in Hsc. rewrite Hsc. now apply represents_set. }
  rewrite H, app_nil_l.
  assert (NoDup (map fst (flat_map estep (enumerate xs)))) as Hnd.
  { replace (map fst (flat_map estep (enumerate xs)))
      with (map lk (map fst (enumerate xs))).
    - apply Finite.Injective_map_NoDup; [exact Hinj|].
      rewrite enumerate_fst. apply seq_NoDup.
    - rewrite map_map. generalize (enumerate xs). intros l.
      induction l as [|x r IH]; simpl; [reflexivity|now rewrite IH]. }
  rewrite (last_write_perm _ _ (flat_map estep (enumerate xs)) Hnd)
    by (apply Permutation_flat_map, natsorted_items_perm).
  destruct (nth_error xs i) as [x|] eqn:E.
  - apply last_write_unique; [exact Hnd|].
    apply in_flat_map. exists (i, x). split; [now apply enumerate_In|now left].
  - apply last_write_None. intros Hin. apply in_map_iff in Hin as ([k0 v0] & Hk & Hin).
    apply in_flat_map in Hin as ([j y] & Hj & Hy). destruct Hy as [Hy|[]].
    injection Hy as <- <-. simpl in Hk. apply Hinj in Hk. subst j.
    apply enumerate_In in Hj. congruence.
Qed.

(** X5.  The elements of an array of scalars are found under the keys of
    their original positions: for a member [key] of an object, position
    [i] is under [<new_key>_<i+1>], and for a top-level array under
    [item_<i+1>] (or [<parent_key>_<i+1>]); a position past the end has no
    key. *)
Theorem flatten_json_array_lookup :
  forall (key : string) (xs : list json) (parent_key sep : string) (i : nat),
  Forall (fun x => is_scalar x = true) xs ->
  dict_get (flatten_json (JObject [(key, JArray xs)]) parent_key sep)
           (join_key parent_key sep key ++ "_" ++ str_of_nat (i + 1))
  = nth_error xs i
  /\ dict_get (flatten_json (JArray xs) parent_key sep) (top_list_key parent_key i)
     = nth_error xs i.
Proof.
  intros key xs p sep i Hall. split.
  - rewrite (flatten_json_with (JObject [(key, JArray xs)])).
    rewrite (flatten_with_object _ natsorted_items_perm).
    cbn [fold_left]. unfold object_step. fold (join_key p sep key).
    apply (array_of_scalars_lookup _ sep (member_list_key (join_key p sep key)) xs i);
      [apply member_list_key_inj|exact Hall].
  - rewrite (flatten_json_with (JArray xs)).
    rewrite (flatten_with_array _ natsorted_items_perm).
    apply array_of_scalars_lookup; [apply top_list_key_inj|exact Hall].
Qed.

Lemma flatten_json_array_lookup_witness :
  dict_get (flatten_json (JArray [JStr "b"; JStr "a"]) EmptyString "_") "item_2"
  = Some (JStr "a").
Proof.
  apply (proj2 (flatten_json_array_lookup "k" [JStr "b"; JStr "a"] EmptyString "_" 1
                  ltac:(repeat constructor))).
Defined.

Lemma append_assoc_str a b c : (a ++ b) ++ c = a ++ (b ++ c).
Proof. induction a as [|x a IH]; simpl; [reflexivity|now rewrite IH]. Qed.

Lemma append_empty_r a : a ++ EmptyString = a.
Proof. induction a as [|x a IH]; simpl; [reflexivity|now rewrite IH]. Qed.

Lemma nonempty_append a b : nonempty a = true -> nonempty (a ++ b) = true.
Proof. now destruct a. Qed.

Lemma dict_update_In d d' kv : In kv (dict_update d d') -> In kv d \/ In kv d'.
Proof.
  unfold dict_update. revert d. induction d' as [|[k v] r IH]; intros d; simpl; [tauto|].
  intros H. apply IH in H as [H|H]; [|tauto].
  apply dict_set_In in H as [H|H]; [now left|]. right. now left.
Qed.

Section PrefixFacts.
Variable arrange : list json -> list (nat * json).

(** Under a non-empty prefix every key of the record starts with it. *)
Lemma flatten_fuel_prefix n data p s k v :
  nonempty p = true ->
  In (k, v) (flatten_fuel arrange n data p s) -> exists rest, k = p ++ rest.
Proof.
  revert data p k v. induction n as [|n IH]; intros data p k v Hp Hin; [destruct Hin|].
  assert (forall (mid : string) l k v,
            In (k, v) (fold_left
                         (list_step (flatten_fuel arrange n) s
                            (fun i => p ++ mid ++ "_" ++ str_of_nat (i + 1))) l [])
            -> exists rest, k = p ++ rest) as Hlist_from_nil.
  { intros mid l. apply (fold_left_inv (fun acc => forall k v, In (k, v) acc ->
                                                   exists rest, k = p ++ rest)).
    - intros k0 v0 [].
    - intros acc [i item] _ Hacc k0 v0 H0. unfold list_step in H0.
      destruct (is_container item).
      + apply dict_update_In in H0 as [H0|H0]; [now apply (Hacc k0 v0)|].
        apply IH in H0 as [rest ->].
        * exists (mid ++ "_" ++ str_of_nat (i + 1) ++ rest).
          now rewrite !append_assoc_str.
        * now apply nonempty_append.
      + apply dict_set_In in H0 as [H0|H0]; [now apply (Hacc k0 v0)|].
        injection H0 as -> _. now eexists. }
  simpl in Hin. destruct data;
    try (destruct Hin as [E|[]]; injection E as <- _; exists EmptyString;
         now rewrite append_empty_r).
  - rewrite Hp in Hin.
    apply (Hlist_from_nil EmptyString (arrange items) k v). exact Hin.
  - revert k v Hin.
    apply (fold_left_inv (fun acc => forall k v, In (k, v) acc -> exists rest, k = p ++ rest)).
    + intros k0 v0 [].
    + intros acc [key value] _ Hacc k0 v0 H0. unfold object_step in H0. rewrite Hp in H0.
      destruct value;
        try (apply dict_set_In in H0 as [H0|H0]; [now apply (Hacc k0 v0)|];
             injection H0 as -> _; now eexists).
      * revert k0 v0 H0.
        apply (fold_left_inv (fun acc => forall k v, In (k, v) acc ->
                                         exists rest, k = p ++ rest)); [exact Hacc|].
        intros acc' [i item] _ Hacc' k1 v1 H1. unfold list_step in H1.
        destruct (is_container item).
        -- apply dict_update_In in H1 as [H1|H1]; [now apply (Hacc' k1 v1)|].
           apply IH in H1 as [rest ->].
           ++ exists (s ++ key ++ "_" ++ str_of_nat (i + 1) ++ rest).
              now rewrite !append_assoc_str.
           ++ do 2 apply nonempty_append. exact Hp.
        -- apply dict_set_In in H1 as [H1|H1]; [now apply (Hacc' k1 v1)|].
           injection H1 as -> _. exists (s ++ key ++ "_" ++ str_of_nat (i + 1)).
           now rewrite !append_assoc_str.
      * apply dict_update_In in H0 as [H0|H0]; [now apply (Hacc k0 v0)|].
        apply IH in H0 as [rest ->].
        -- exists (s ++ key ++ rest). now rewrite !append_assoc_str.
        -- now apply nonempty_append.
Qed.
End PrefixFacts.

(** X6.  Column names encode the path.  Under a non-empty prefix every
    key of the record starts with the prefix; the keys of a top-level
    array start with [item_]; and every key of a top-level object starts
    with the key of one of its members. *)
Theorem flatten_json_keys_extend_prefix :
  forall (data : json) (parent_key sep k : string) (v : json),
  In (k, v) (flatten_json data parent_key sep) ->
  (nonempty parent_key = true -> exists rest, k = parent_key ++ rest)
  /\ (parent_key = EmptyString ->
      match data with
      | JArray _ => exists rest, k = "item_" ++ rest
      | JObject members =>
          exists key value rest, In (key, value) members /\ k = key ++ rest
      | _ => k = EmptyString
      end).
Proof.
  intros data p sep k v Hin. split.
  - intros Hp. now apply (flatten_fuel_prefix _ _ _ _ _ _ _ Hp Hin).
  - intros ->. destruct data;
      try (apply dict_set_In in Hin as [[]|E]; now injection E as -> _).
    + rewrite flatten_json_with, (flatten_with_array _ natsorted_items_perm) in Hin.
      revert k v Hin.
      apply (fold_left_inv (fun acc => forall k v, In (k, v) acc ->
                                       exists rest, k = "item_" ++ rest)).
      * intros k v [].
      * intros acc [i item] _ Hacc k v H. unfold list_step, top_list_key in H.
        cbn [nonempty] in H. destruct (is_container item).
        -- apply dict_update_In in H as [H|H]; [now apply (Hacc k v)|].
           apply (flatten_fuel_prefix natsorted_items) in H as [rest ->]; [|reflexivity].
           exists (str_of_nat (i + 1) ++ rest). now rewrite !append_assoc_str.
        -- apply dict_set_In in H as [H|H]; [now apply (Hacc k v)|].
           injection H as -> _. now eexists.
    + rewrite flatten_json_with, (flatten_with_object _ natsorted_items_perm) in Hin.
      revert k v Hin.
      apply (fold_left_inv (fun acc => forall k v, In (k, v) acc ->
               exists key value rest, In (key, value) members /\ k = key ++ rest)).
      * intros k v [].
      * intros acc [key value] Hmem Hacc k v H. unfold object_step in H.
        cbn [nonempty] in H.
        assert (forall rest, k = key ++ rest ->
                  exists key' value' rest', In (key', value') members /\ k = key' ++ rest')
          as Hdone by (intros rest E; now exists key, value, rest).
        destruct value;
          try (apply dict_set_In in H as [H|H]; [now apply (Hacc k v)|];
               injection H as -> _; apply (Hdone EmptyString); now rewrite append_empty_r).
        -- revert k v H Hdone.
           apply (fold_left_inv
                    (fun acc => forall k v, In (k, v) acc ->
                       (forall rest, k = key ++ rest ->
                          exists key' value' rest',
                            In (key', value') members /\ k = key' ++ rest') ->
                       exists key' value' rest',
                         In (key', value') members /\ k = key' ++ rest')).
           ++ intros k v H _. now apply (Hacc k v).
           ++ intros acc' [i item] _ Hacc' k v H Hdone. unfold list_step in H.
              destruct (is_container item).
              ** apply dict_update_In in H as [H|H]; [now apply (Hacc' k v)|].
                 apply (flatten_fuel_prefix natsorted_items) in H as [rest ->].
                 --- apply (Hdone ("_" ++ str_of_nat (i + 1) ++ rest)).
                     now rewrite !append_assoc_str.
                 --- destruct key; reflexivity.
              ** apply dict_set_In in H as [H|H]; [now apply (Hacc' k v)|].
                 injection H as -> _. now apply (Hdone ("_" ++ str_of_nat (i + 1))).
        -- apply dict_update_In in H as [H|H]; [now apply (Hacc k v)|].
           destruct (nonempty key) eqn:Ek.
           ++ apply (flatten_fuel_prefix natsorted_items) in H as [rest ->]; [|exact Ek].
              now apply (Hdone rest).
           ++ destruct key; [|discriminate Ek]. now apply (Hdone k).
Qed.

Lemma flatten_json_keys_extend_prefix_witness :
  exists rest, "p_a_1" = "p" ++ rest.
Proof.
  apply (proj1 (flatten_json_keys_extend_prefix
                  (JObject [("a", JArray [JInt 7])]) "p" "_" "p_a_1" (JInt 7)
                  ltac:(vm_compute; now left))).
  reflexivity.
Defined.

(* ================================================================= *)
(** ** More on the job *)

Lemma record_of_time_offset f :
  loaded f = true -> dict_get (record_of f) TIME_COLUMN = Some (JInt (time_offset_of f)).
Proof.
  unfold loaded, record_of, process_file, time_offset_of.
  destruct (file_load f); [|discriminate|discriminate]. intros _.
  rewrite dict_get_set. now rewrite String.eqb_refl.
Qed.

Lemma calculate_time_offset_mono a b :
  (a <= b)%Z -> (calculate_time_offset a <= calculate_time_offset b)%Z.
Proof. unfold calculate_time_offset. lia. Qed.

Lemma StronglySorted_map {A B : Type} (R : A -> A -> Prop) (R' : B -> B -> Prop)
      (g : A -> B) l :
  (forall a b, R a b -> R' (g a) (g b)) -> StronglySorted R l -> StronglySorted R' (map g l).
Proof.
  intros H. induction 1 as [|x l Hs IH Hall]; simpl; constructor; [exact IH|].
  rewrite Forall_forall in *. intros y Hy. apply in_map_iff in Hy as (a & <- & Ha).
  now apply H, Hall.
Qed.

(** X7.  The first cell of every row is the time offset of its file,
    [max(0, chunk index - 1)] in decimal, whatever the document itself
    holds under the reserved name; down the table the offsets are never
    negative and never decrease. *)
Theorem job_time_offset_column :
  forall (set_iter : list string -> list string) (d : directory)
         (w : list string) (t : csv_table),
  json_directory_to_csv set_iter d = (w, Return t) ->
  let sources := parsed (sort_by_chunk (dir_glob d)) in
  map (hd EmptyString) (rows t) = map (fun f => str_of_Z (time_offset_of f)) sources
  /\ StronglySorted Z.le (map time_offset_of sources)
  /\ Forall (fun z => (0 <= z)%Z) (map time_offset_of sources).
Proof.
  intros set_iter d w t Ht sources.
  apply json_directory_to_csv_return in Ht as [Hh Hr].
  split; [|split].
  - rewrite Hr, map_map. apply map_ext_in. intros f Hf.
    apply parsed_In in Hf as [_ Hl].
    rewrite Hh. unfold schema_of, write_row. cbn [map hd].
    now rewrite (record_of_time_offset f Hl).
  - apply (StronglySorted_map chunk_le).
    + intros a b. apply calculate_time_offset_mono.
    + apply StronglySorted_filter, sort_by_chunk_sorted.
  - apply Forall_forall. intros z Hz. apply in_map_iff in Hz as (f & <- & _).
    unfold time_offset_of, calculate_time_offset. lia.
Qed.

Lemma job_time_offset_column_witness :
  map (hd EmptyString) [["0"]; ["3"]] = ["0"; "3"].
Proof.
  apply (proj1 (job_time_offset_column first_seen
                  (mk_dir [mk_file "rec_chunk_004.json"
                             (JObject [("5_sec_time_offset", JFloat "0.9")]);
                           mk_file "rec_chunk_001.json"
                             (JObject [("5_sec_time_offset", JFloat "0.1")])])
                  [] {| header := ["5_sec_time_offset"]; rows := [["0"]; ["3"]] |}
                  eq_refl)).
Defined.

Lemma dict_get_In d k v : dict_get d k = Some v -> In (k, v) d.
Proof.
  induction d as [|[k0 v0] r IH]; simpl; [discriminate|].
  destruct (String.eqb k0 k) eqn:E.
  - apply String.eqb_eq in E. subst. intros H. injection H as ->. now left.
  - intros H. right. now apply IH.
Qed.

Lemma write_row_nth fieldnames record j col :
  nth_error fieldnames j = Some col ->
  nth_error (write_row fieldnames record) j
  = Some (csv_cell (match dict_get record col with
                    | Some v => v
                    | None => JStr EmptyString
                    end)).
Proof.
  intros H. unfold write_row. rewrite nth_error_map, H. reflexivity.
Qed.

(** X8.  Nothing of a record is left out of the table: every key of the
    record of a loaded file is a column of the header, and the row of the
    file has the text of the record's value in that column.  Each row has
    as many cells as the header has columns. *)
Theorem job_rows_hold_every_value :
  forall (set_iter : list string -> list string), set_iter_ok set_iter ->
  forall (d : directory) (w : list string) (t : csv_table),
  json_directory_to_csv set_iter d = (w, Return t) ->
  forall f, In f (dir_glob d) -> loaded f = true ->
  In (write_row (header t) (record_of f)) (rows t)
  /\ List.length (write_row (header t) (record_of f)) = List.length (header t)
  /\ forall k v, dict_get (record_of f) k = Some v ->
       exists j, nth_error (header t) j = Some k
                 /\ nth_error (write_row (header t) (record_of f)) j = Some (csv_cell v).
Proof.
  intros set_iter Hok d w t Ht f Hf Hl.
  apply json_directory_to_csv_return in Ht as [Hh Hr].
  split; [|split].
  - rewrite Hr. apply (in_map (fun f => write_row (header t) (record_of f))).
    apply (Permutation_in _ (Permutation_sym (parsed_sorted_perm (dir_glob d)))).
    now apply parsed_In.
  - unfold write_row. apply length_map.
  - intros k v Hk.
    assert (In k (header t)) as Hin.
    { rewrite Hh. unfold schema_of.
      destruct (string_dec k TIME_COLUMN) as [->|Hne]; [now left|right].
      apply (schema_rest_In set_iter _ _ Hok). split; [exact Hne|].
      apply names_seen_In. exists f. repeat split; try assumption.
      apply dict_get_In in Hk. unfold dict_keys.
      now apply (in_map fst) in Hk. }
    apply In_nth_error in Hin as [j Hj]. exists j. split; [exact Hj|].
    rewrite (write_row_nth _ _ _ _ Hj), Hk. reflexivity.
Qed.

Lemma job_rows_hold_every_value_witness :
  exists j, nth_error ["5_sec_time_offset"; "x"; "y"] j = Some "y"
            /\ nth_error ["2"; ""; "8"] j = Some "8".
Proof.
  destruct (job_rows_hold_every_value first_seen first_seen_ok
              (mk_dir [mk_file "rec_chunk_003.json" (JObject [("y", JInt 8)]);
                       mk_file "rec_chunk_002.json" (JObject [("x", JInt 7)])])
              [] {| header := ["5_sec_time_offset"; "x"; "y"];
                    rows := [["1"; "7"; ""]; ["2"; ""; "8"]] |} eq_refl
              (mk_file "rec_chunk_003.json" (JObject [("y", JInt 8)]))
              ltac:(now left) eq_refl) as (_ & _ & H).
  apply (H "y" (JInt 8)). reflexivity.
Defined.

(* ================================================================= *)
(** ** The file names of the pipeline and the chunk index *)











(* ================================================================= *)
(** ** Cutting a recording into chunks *)

Section ChunkerFacts.
Context {sample : Type}.
Implicit Types (audio : list sample).

Lemma firstn_plus {A : Type} (a b : nat) (l : list A) :
  firstn (a + b) l = (firstn a l ++ firstn b (skipn a l))%list.
Proof.
  revert l. induction a as [|a IH]; intros l; [reflexivity|].
  destruct l as [|x l]; simpl.
  - now rewrite firstn_nil.
  - now rewrite IH.
Qed.

Lemma chunk_at_nat audio cs i :
  (0 < cs)%Z ->
  chunk_at audio cs i = firstn (Z.to_nat cs) (skipn (i * Z.to_nat cs) audio).
Proof.
  intros H. unfold chunk_at, slice. f_equal.
  - f_equal. lia.
  - f_equal. lia.
Qed.

Lemma chunk_at_length audio cs i :
  (0 < cs)%Z -> (i + 1) * Z.to_nat cs <= List.length audio ->
  List.length (chunk_at audio cs i) = Z.to_nat cs.
Proof.
  intros H Hle. rewrite chunk_at_nat by exact H.
  rewrite length_firstn, length_skipn. lia.
Qed.

Lemma chunks_concat audio cs n :
  (0 < cs)%Z ->
  List.concat (map (chunk_at audio cs) (seq 0 n)) = firstn (n * Z.to_nat cs) audio.
Proof.
  intros H. induction n as [|n IH]; [reflexivity|].
  rewrite seq_S, map_app, concat_app, IH. cbn [map List.concat Nat.add].
  rewrite app_nil_r, chunk_at_nat by exact H.
  rewrite <- firstn_plus. f_equal. lia.
Qed.

Lemma write_chunks_all_ok audio cs stem write_ok indices written created :
  (forall i, In i indices -> write_ok (chunk_wav_name stem i) = true) ->
  write_chunks audio cs stem write_ok indices written created
  = ((written ++ map (fun i => (chunk_wav_name stem i, chunk_at audio cs i)) indices)%list,
     (created + Z.of_nat (List.length indices))%Z).
Proof.
  revert written created. induction indices as [|i rest IH]; intros written created Hok.
  - simpl. rewrite app_nil_r. f_equal. lia.
  - cbn [write_chunks]. rewrite (Hok i (or_introl eq_refl)).
    rewrite IH by (intros j Hj; apply Hok; now right).
    cbn [map List.length]. rewrite <- app_assoc. f_equal. lia.
Qed.

Lemma write_chunks_first_failure audio cs stem write_ok before k rest written created :
  (forall i, In i before -> write_ok (chunk_wav_name stem i) = true) ->
  write_ok (chunk_wav_name stem k) = false ->
  write_chunks audio cs stem write_ok (before ++ k :: rest) written created
  = ((written ++ map (fun i => (chunk_wav_name stem i, chunk_at audio cs i)) before)%list,
     0%Z).
Proof.
  revert written created. induction before as [|i before IH]; intros written created Hok Hk.
  - rewrite app_nil_l. cbn [write_chunks map]. rewrite Hk. now rewrite app_nil_r.
  - rewrite <- app_comm_cons. cbn [write_chunks]. rewrite (Hok i (or_introl eq_refl)).
    rewrite IH; [|intros j Hj; apply Hok; now right|exact Hk].
    cbn [map]. now rewrite <- app_assoc.
Qed.

Lemma write_chunks_count audio cs stem write_ok indices written created :
  (0 <= created)%Z ->
  (0 <= snd (write_chunks audio cs stem write_ok indices written created))%Z.
Proof.
  revert written created. induction indices as [|i rest IH]; intros written created H.
  - exact H.
  - cbn [write_chunks]. destruct (write_ok (chunk_wav_name stem i)); [|simpl; lia].
    apply IH. lia.
Qed.

Lemma chunk_audio_file_count (read : option (list sample)) stem cs mkdir_ok write_ok :
  (0 <= snd (chunk_audio_file read stem cs mkdir_ok write_ok))%Z.
Proof.
  unfold chunk_audio_file. destruct read as [audio|]; [|simpl; lia].
  destruct (cs =? 0)%Z; [simpl; lia|]. destruct mkdir_ok; [|simpl; lia].
  apply write_chunks_count. lia.
Qed.

(** X10.  With a positive chunk size and an environment that lets every
    step through, the recording is cut into [len // chunk_size] chunks,
    numbered from 001 in order, each of exactly [chunk_size] samples; put
    end to end the chunks are the beginning of the recording, and fewer
    than [chunk_size] samples at its end are left out. *)
Theorem chunk_audio_file_partitions :
  forall (audio_data : list sample) (stem : string) (chunk_size : Z)
         (write_ok : string -> bool),
  (0 < chunk_size)%Z ->
  (forall name, write_ok name = true) ->
  let n := Z.to_nat (Z.of_nat (List.length audio_data) / chunk_size) in
  let files := fst (chunk_audio_file (Some audio_data) stem chunk_size true write_ok) in
  snd (chunk_audio_file (Some audio_data) stem chunk_size true write_ok)
  = (Z.of_nat (List.length audio_data) / chunk_size)%Z
  /\ map fst files = map (chunk_wav_name stem) (seq 0 n)
  /\ Forall (fun f => Z.of_nat (List.length (snd f)) = chunk_size) files
  /\ List.concat (map snd files) = firstn (n * Z.to_nat chunk_size) audio_data
  /\ (Z.of_nat (List.length audio_data) - Z.of_nat n * chunk_size < chunk_size)%Z.
Proof.
  intros audio stem cs write_ok Hcs Hok n files.
  assert (0 <= Z.of_nat (List.length audio) / cs)%Z as Hq by (apply Z.div_pos; lia).
  assert (Z.of_nat n = Z.of_nat (List.length audio) / cs)%Z as Hn by (unfold n; lia).
  assert (n * Z.to_nat cs <= List.length audio) as Hfit.
  { pose proof (Z.mul_div_le (Z.of_nat (List.length audio)) cs Hcs). nia. }
  assert (chunk_audio_file (Some audio) stem cs true write_ok
          = (map (fun i => (chunk_wav_name stem i, chunk_at audio cs i)) (seq 0 n),
             Z.of_nat n)) as E.
  { unfold chunk_audio_file. replace (cs =? 0)%Z with false by (symmetry; apply Z.eqb_neq; lia).
    fold n. rewrite write_chunks_all_ok by (intros i _; apply Hok).
    rewrite length_seq. reflexivity. }
  subst files. rewrite E. cbn [fst snd]. rewrite !map_map. cbn [fst snd].
  split; [exact Hn|]. split; [reflexivity|]. split; [|split].
  - apply Forall_forall. intros f Hf. apply in_map_iff in Hf as (i & <- & Hi).
    apply in_seq in Hi. cbn [snd]. rewrite chunk_at_length; [lia|exact Hcs|nia].
  - now apply chunks_concat.
  - rewrite Hn. pose proof (Z.mod_pos_bound (Z.of_nat (List.length audio)) cs Hcs).
    pose proof (Z.div_mod (Z.of_nat (List.length audio)) cs). lia.
Qed.

(** X11.  A write that fails makes the function return 0 although the
    chunks before it have been written and stay. *)
Theorem chunk_audio_file_partial_failure :
  forall (audio_data : list sample) (stem : string) (chunk_size : Z)
         (write_ok : string -> bool) (k : nat),
  (0 < chunk_size)%Z ->
  (Z.of_nat k < Z.of_nat (List.length audio_data) / chunk_size)%Z ->
  (forall i, i < k -> write_ok (chunk_wav_name stem i) = true) ->
  write_ok (chunk_wav_name stem k) = false ->
  chunk_audio_file (Some audio_data) stem chunk_size true write_ok
  = (map (fun i => (chunk_wav_name stem i, chunk_at audio_data chunk_size i)) (seq 0 k),
     0%Z).
Proof.
  intros audio stem cs write_ok k Hcs Hk Hbefore Hfail.
  unfold chunk_audio_file. replace (cs =? 0)%Z with false by (symmetry; apply Z.eqb_neq; lia).
  set (n := Z.to_nat (Z.of_nat (List.length audio) / cs)).
  assert (k < n) as Hkn by (unfold n; lia).
  replace (seq 0 n) with (seq 0 k ++ k :: seq (S k) (n - S k))%list.
  - rewrite write_chunks_first_failure; [reflexivity| |exact Hfail].
    intros i Hi. apply in_seq in Hi. apply Hbefore. lia.
  - replace n with (k + S (n - S k)) at 2 by lia. now rewrite seq_app.
Qed.
End ChunkerFacts.

Lemma chunk_audio_file_partitions_witness :
  snd (chunk_audio_file (Some [1; 2; 3; 4; 5; 6; 7]) "rec" 3 true always_ok) = (7 / 3)%Z.
Proof.
  apply (proj1 (chunk_audio_file_partitions [1; 2; 3; 4; 5; 6; 7] "rec" 3 always_ok
                  ltac:(lia) ltac:(reflexivity))).
Defined.

Lemma chunk_audio_file_partial_failure_witness :
  chunk_audio_file (Some [1; 2; 3; 4; 5; 6; 7]) "rec" 3 true
                   (fun name => negb (String.eqb name "rec_chunk_002.wav"))
  = ([("rec_chunk_001.wav", [1; 2; 3])], 0%Z).
Proof.
  apply (chunk_audio_file_partial_failure [1; 2; 3; 4; 5; 6; 7] "rec" 3
           (fun name => negb (String.eqb name "rec_chunk_002.wav")) 1
           ltac:(lia) ltac:(vm_compute; reflexivity)).
  - intros i Hi. assert (i = 0) as -> by lia. reflexivity.
  - reflexivity.
Defined.

Section TreeFacts.
Context {sample : Type}.

Lemma tree_fold_invariant (cs : Z) (entries : list (@audio_entry sample)) (s0 : tree_stats) :
  let s := fold_left (tree_step cs) entries s0 in
  total_files s = total_files s0
  /\ (processed_files s + failed_files s
      = processed_files s0 + failed_files s0
        + Z.of_nat (List.length (filter entry_is_file entries)))%Z
  /\ (processed_files s0 <= processed_files s)%Z
  /\ (failed_files s0 <= failed_files s)%Z
  /\ (processed_files s - processed_files s0 <= total_chunks s - total_chunks s0)%Z.
Proof.
  revert s0. induction entries as [|e r IH]; intros s0; cbn zeta.
  - simpl. lia.
  - cbn [fold_left filter]. specialize (IH (tree_step cs s0 e)). cbn zeta in IH.
    destruct IH as (H1 & H2 & H3 & H4 & H5).
    unfold tree_step in *. destruct (entry_is_file e); cbn [negb] in *.
    + destruct (0 <? snd (chunk_audio_file (entry_read e) (entry_stem e) cs
                            (entry_mkdir_ok e) (entry_write_ok e)))%Z eqn:E;
        cbn [total_files processed_files total_chunks failed_files List.length] in *.
      * apply Z.ltb_lt in E. repeat split; lia.
      * repeat split; lia.
    + repeat split; lia.
Qed.

(** X12.  [process_directory_tree] raises exactly when the input
    directory does not exist.  Otherwise [total_files] counts every entry
    found, each entry that is a file is counted once, as processed or as
    failed, and every processed file accounts for at least one chunk. *)
Theorem process_directory_tree_stats :
  forall (input_exists : bool) (audio_files : list (@audio_entry sample)) (chunk_size : Z),
  (process_directory_tree input_exists audio_files chunk_size = None
   <-> input_exists = false)
  /\ forall stats,
       process_directory_tree input_exists audio_files chunk_size = Some stats ->
       total_files stats = Z.of_nat (List.length audio_files)
       /\ (processed_files stats + failed_files stats
           = Z.of_nat (List.length (filter entry_is_file audio_files)))%Z
       /\ (0 <= processed_files stats <= total_chunks stats)%Z
       /\ (0 <= failed_files stats)%Z
       /\ (processed_files stats + failed_files stats <= total_files stats)%Z.
Proof.
  intros input_exists entries cs. unfold process_directory_tree.
  destruct input_exists; cbn [negb].
  2:{ split; [tauto|discriminate]. }
  split; [split; [destruct entries; discriminate|discriminate]|].
  intros stats Hs.
  assert (stats = fold_left (tree_step cs) entries
                    {| total_files := Z.of_nat (List.length entries);
                       processed_files := 0; total_chunks := 0; failed_files := 0 |}) as ->
    by (destruct entries; injection Hs as <-; reflexivity).
  pose proof (tree_fold_invariant cs entries
                {| total_files := Z.of_nat (List.length entries);
                   processed_files := 0; total_chunks := 0; failed_files := 0 |}) as H.
  cbn zeta in H. cbn [total_files processed_files total_chunks failed_files] in H.
  destruct H as (H1 & H2 & H3 & H4 & H5).
  pose proof (filter_length_le entry_is_file entries).
  repeat split; lia.
Qed.

(** X13.  A recording with fewer samples than one chunk gives no chunk,
    and the tree walk counts it as a failed file. *)
Theorem short_recording_counts_as_failed :
  forall (e : @audio_entry sample) (audio_data : list sample) (chunk_size : Z),
  entry_is_file e = true ->
  entry_read e = Some audio_data ->
  (Z.of_nat (List.length audio_data) < chunk_size)%Z ->
  chunk_audio_file (entry_read e) (entry_stem e) chunk_size
                   (entry_mkdir_ok e) (entry_write_ok e) = ([], 0%Z)
  /\ process_directory_tree true [e] chunk_size
     = Some {| total_files := 1; processed_files := 0;
               total_chunks := 0; failed_files := 1 |}.
Proof.
  intros e audio cs Hfile Hread Hshort.
  assert (chunk_audio_file (entry_read e) (entry_stem e) cs
                           (entry_mkdir_ok e) (entry_write_ok e) = ([], 0%Z)) as E.
  { unfold chunk_audio_file. rewrite Hread.
    destruct (cs =? 0)%Z; [reflexivity|].
    rewrite Z.div_small by lia. now destruct (entry_mkdir_ok e). }
  split; [exact E|].
  unfold process_directory_tree, tree_step. cbn [negb fold_left List.length].
  rewrite Hfile, E. reflexivity.
Qed.
End TreeFacts.

Lemma process_directory_tree_stats_witness :
  total_files {| total_files := 2; processed_files := 1;
                 total_chunks := 2; failed_files := 0 |} = 2%Z.
Proof.
  apply (proj2 (process_directory_tree_stats true
                  [ {| entry_is_file := true; entry_stem := "rec";
                       entry_read := Some [1; 2; 3; 4; 5]; entry_mkdir_ok := true;
                       entry_write_ok := always_ok |};
                    {| entry_is_file := false; entry_stem := "dir.wav";
                       entry_read := None; entry_mkdir_ok := true;
                       entry_write_ok := always_ok |} ] 2)
               _ eq_refl).
Defined.

Lemma short_recording_counts_as_failed_witness :
  process_directory_tree true
    [ {| entry_is_file := true; entry_stem := "rec"; entry_read := Some [1; 2];
         entry_mkdir_ok := true; entry_write_ok := always_ok |} ] 3
  = Some {| total_files := 1; processed_files := 0; total_chunks := 0; failed_files := 1 |}.
Proof.
  apply (proj2 (short_recording_counts_as_failed
                  {| entry_is_file := true; entry_stem := "rec"; entry_read := Some [1; 2];
                     entry_mkdir_ok := true; entry_write_ok := always_ok |}
                  [1; 2] 3 eq_refl eq_refl ltac:(simpl; lia))).
Defined.

(* ================================================================= *)
(** ** The converter without flattening *)












Lemma plain_collect_keys_ok files acc :
  existsb plain_fatal files = false ->
  plain_collect_keys files acc
  = inl (acc ++ flat_map (fun f => map fst (plain_members f)) files)%list.
Proof.
  revert acc. induction files as [|f r IH]; intros acc H.
  - simpl. now rewrite app_nil_r.
  - cbn [existsb] in H. apply orb_false_iff in H as [Hf Hr].
    cbn [plain_collect_keys flat_map]. unfold plain_fatal, plain_members in *.
    destruct (plain_content f) as [data| |e]; try discriminate Hf.
    + destruct data; try discriminate Hf. rewrite (IH _ Hr). now rewrite app_assoc.
    + rewrite (IH _ Hr). reflexivity.
Qed.

Lemma plain_collect_keys_fatal files acc :
  existsb plain_fatal files = true -> exists e, plain_collect_keys files acc = inr e.
Proof.
  revert acc. induction files as [|f r IH]; intros acc H; [discriminate H|].
  cbn [existsb] in H. cbn [plain_collect_keys]. unfold plain_fatal in H.
  destruct (plain_content f) as [data| |e]; try (now eexists).
  - destruct data; try (now eexists). apply IH. exact H.
  - apply IH. exact H.
Qed.

Lemma existsb_perm {A : Type} (p : A -> bool) l l' :
  Permutation l l' -> existsb p l = existsb p l'.
Proof.
  intros Hp. destruct (existsb p l) eqn:E; symmetry.
  - apply existsb_exists in E as (x & Hx & Hpx). apply existsb_exists. exists x.
    split; [now apply (Permutation_in _ Hp)|exact Hpx].
  - destruct (existsb p l') eqn:E'; [|reflexivity].
    apply existsb_exists in E' as (x & Hx & Hpx).
    assert (existsb p l = true) as H
      by (apply existsb_exists; exists x; split;
          [now apply (Permutation_in _ (Permutation_sym Hp))|exact Hpx]).
    congruence.
Qed.

Lemma plain_sort_perm glob : Permutation glob (plain_sort_by_chunk glob).
Proof. apply stable_sort_perm. Qed.

Lemma plain_write_rows_map fieldnames files :
  plain_write_rows fieldnames files
  = map (fun f => write_row fieldnames (plain_row_data f (plain_members f)))
        (filter plain_is_object files).
Proof.
  induction files as [|f r IH]; [reflexivity|].
  cbn [plain_write_rows filter]. rewrite IH.
  assert (plain_is_object f = true -> plain_content f = PlainLoaded (JObject (plain_members f)))
    as Hobj.
  { unfold plain_is_object, plain_members.
    destruct (plain_content f) as [data| |e]; try discriminate.
    destruct data; try discriminate. reflexivity. }
  destruct (plain_is_object f) eqn:E.
  - rewrite (Hobj eq_refl). reflexivity.
  - unfold plain_is_object in E. destruct (plain_content f) as [data| |e]; try reflexivity.
    destruct data; try reflexivity. discriminate E.
Qed.

(** The plain converter, with its first loop carried out. *)
Lemma plain_directory_to_csv_unfold set_iter dir_ok glob out_ok :
  plain_directory_to_csv set_iter dir_ok glob out_ok =
  if negb dir_ok then PlainRaise PlainValueError_no_directory
  else
    match glob with
    | [] => PlainRaise PlainValueError_no_json_files
    | _ :: _ =>
        if existsb plain_fatal glob
        then match plain_collect_keys (plain_sort_by_chunk glob) [] with
             | inr e => PlainRaise e
             | inl _ => PlainRaise PlainAttributeError
             end
        else
          let fieldnames :=
            CHUNK_COLUMN
            :: sorted_keys set_iter
                 (flat_map (fun f => map fst (plain_members f)) (plain_sort_by_chunk glob)) in
          if out_ok
          then PlainReturn
                 {| header := fieldnames;
                    rows := map (fun f => write_row fieldnames
                                            (plain_row_data f (plain_members f)))
                                (filter plain_is_object (plain_sort_by_chunk glob)) |}
          else PlainRaise PlainOSError
    end.
Proof.
  unfold plain_directory_to_csv. destruct (negb dir_ok); [reflexivity|].
  destruct glob as [|f0 fs]; [reflexivity|].
  rewrite (existsb_perm plain_fatal _ _ (plain_sort_perm (f0 :: fs))).
  destruct (existsb plain_fatal (plain_sort_by_chunk (f0 :: fs))) eqn:E.
  - destruct (plain_collect_keys_fatal _ [] E) as [e ->]. reflexivity.
  - rewrite (plain_collect_keys_ok _ [] E), app_nil_l. cbv zeta.
    now rewrite plain_write_rows_map.
Qed.

Lemma set_iter_nil set_iter : set_iter_ok set_iter -> set_iter [] = [].
Proof.
  intros Hok. destruct (Hok []) as [_ H]. destruct (set_iter []) as [|x r]; [reflexivity|].
  exfalso. apply (H x). now left.
Qed.

Lemma plain_fatal_iff f :
  plain_fatal f = true <->
  (exists e, plain_content f = PlainUncaught e)
  \/ (exists data, plain_content f = PlainLoaded data /\ plain_is_object f = false).
Proof.
  unfold plain_fatal, plain_is_object. destruct (plain_content f) as [data| |e].
  - destruct data; split; intros H; try reflexivity;
      try (right; eexists; split; reflexivity);
      try discriminate H; destruct H as [[e He]|[d [Hd1 Hd2]]]; discriminate.
  - split; [discriminate|]. intros [[e He]|[data [Hd _]]]; discriminate.
  - split; [intros _; left; now eexists|reflexivity].
Qed.

(** X15.  For documents of plain text and file names of plain text that
    have no more characters than [int] converts digits (the digits of a
    part of the name are joined before they are converted), the plain
    converter raises exactly when the input is no directory, or no file matches, or
    [json.load] raises on some file an exception other than
    [JSONDecodeError] and [IOError] (the file cannot be decoded as text,
    or holds an integer of more digits than [int] converts, or is nested
    beyond the recursion limit), or some file holds a value that is not
    an object, or the output cannot be written.  Files that are not valid
    JSON do not make it raise: when every file is one, it still writes a
    table, with the single column [chunk_number] and no row. *)
Theorem plain_directory_to_csv_errors :
  forall (set_iter : list string -> list string) (dir_ok : bool)
         (glob : list plain_file) (out_ok : bool),
  (forall f, In f glob ->
             plain_text (plain_name f) = true
             /\ String.length (plain_name f) <= MAX_STR_DIGITS) ->
  (forall f data, In f glob -> plain_content f = PlainLoaded data -> plain_json data = true) ->
  ((exists e, plain_directory_to_csv set_iter dir_ok glob out_ok = PlainRaise e)
   <-> (dir_ok = false \/ glob = []
        \/ (exists f e, In f glob /\ plain_content f = PlainUncaught e)
        \/ (exists f data, In f glob /\ plain_content f = PlainLoaded data
                           /\ plain_is_object f = false)
        \/ out_ok = false))
  /\ (set_iter_ok set_iter -> dir_ok = true -> out_ok = true -> glob <> [] ->
      (forall f, In f glob -> plain_content f = PlainCaught) ->
      plain_directory_to_csv set_iter dir_ok glob out_ok
      = PlainReturn {| header := [CHUNK_COLUMN]; rows := [] |}).
Proof.
  intros set_iter dir_ok glob out_ok _ _. rewrite plain_directory_to_csv_unfold. split.
  - assert ((exists f, In f glob /\ plain_fatal f = true) <->
            ((exists f e, In f glob /\ plain_content f = PlainUncaught e)
             \/ (exists f data, In f glob /\ plain_content f = PlainLoaded data
                                /\ plain_is_object f = false))) as Hfatal.
    { split.
      - intros (f & Hf & H). apply plain_fatal_iff in H as [[e He]|[data Hd]].
        + left. now exists f, e.
        + right. now exists f, data.
      - intros [(f & e & Hf & He)|(f & data & Hf & Hd)]; exists f; (split; [exact Hf|]);
          apply plain_fatal_iff; [left; now exists e|right; now exists data]. }
    destruct dir_ok; cbn [negb]; [|split; [now left|now eexists]].
    destruct glob as [|f0 fs]; [split; [right; now left|now eexists]|].
    destruct (existsb plain_fatal (f0 :: fs)) eqn:E.
    + split.
      * intros _. apply existsb_exists in E. apply Hfatal in E as [H|H].
        -- do 2 right. now left.
        -- do 3 right. now left.
      * intros _. destruct (plain_collect_keys _ []); now eexists.
    + cbv zeta. destruct out_ok.
      * split; [intros [e He]; discriminate He|].
        intros [H|[H|[H|[H|H]]]]; try discriminate H.
        -- assert (existsb plain_fatal (f0 :: fs) = true) as Ht; [|congruence].
           apply existsb_exists, Hfatal. now left.
        -- assert (existsb plain_fatal (f0 :: fs) = true) as Ht; [|congruence].
           apply existsb_exists, Hfatal. now right.
      * split; [intros _; now do 4 right|now eexists].
  - intros Hok -> -> Hne Hall. cbn [negb].
    destruct glob as [|f0 fs]; [contradiction|].
    assert (forall l, (forall f, In f l -> plain_content f = PlainCaught) ->
                      existsb plain_fatal l = false
                      /\ flat_map (fun f => map fst (plain_members f)) l = []
                      /\ filter plain_is_object l = []) as Hcaught.
    { induction l as [|f r IH]; intros H; [now repeat split|].
      destruct (IH (fun g Hg => H g (or_intror Hg))) as (H1 & H2 & H3).
      cbn [existsb flat_map filter]. unfold plain_fatal at 1, plain_members at 1,
        plain_is_object at 1. rewrite (H f (or_introl eq_refl)).
      now rewrite H1, H2, H3. }
    destruct (Hcaught _ Hall) as (H1 & _ & _). rewrite H1. cbv zeta.
    destruct (Hcaught (plain_sort_by_chunk (f0 :: fs))) as (_ & H2 & H3).
    { intros f Hf. apply Hall.
      now apply (Permutation_in _ (Permutation_sym (plain_sort_perm (f0 :: fs)))). }
    rewrite H2, H3. unfold sorted_keys. now rewrite (set_iter_nil _ Hok).
Qed.

(** A directory whose only file is not valid JSON, and one with a file
    that holds an object and an integer of too many digits. *)
Lemma plain_directory_to_csv_errors_witness :
  plain_directory_to_csv first_seen true
    [{| plain_name := "rec_chunk_001.json"; plain_content := PlainCaught |}] true
  = PlainReturn {| header := [CHUNK_COLUMN]; rows := [] |}
  /\ exists e,
       plain_directory_to_csv first_seen true
         [{| plain_name := "rec_chunk_001.json";
             plain_content := PlainLoaded (JObject [("score", JInt 1)]) |};
          {| plain_name := "rec_chunk_002.json";
             plain_content := PlainUncaught PlainIntDigitsLimit |}] true
       = PlainRaise e.
Proof.
  split.
  - refine (proj2 (plain_directory_to_csv_errors first_seen true
                     [{| plain_name := "rec_chunk_001.json"; plain_content := PlainCaught |}]
                     true _ _) first_seen_ok eq_refl eq_refl _ _).
    + intros f [<-|[]]. split; [reflexivity|]. apply Nat.leb_le. reflexivity.
    + intros f data [<-|[]] E. discriminate E.
    + discriminate.
    + intros f [<-|[]]. reflexivity.
  - refine (proj2 (proj1 (plain_directory_to_csv_errors first_seen true
                            [{| plain_name := "rec_chunk_001.json";
                                plain_content := PlainLoaded (JObject [("score", JInt 1)]) |};
                             {| plain_name := "rec_chunk_002.json";
                                plain_content := PlainUncaught PlainIntDigitsLimit |}]
                            true _ _)) _).
    + intros f [<-|[<-|[]]]; (split; [reflexivity|]); apply Nat.leb_le; reflexivity.
    + intros f data [<-|[<-|[]]] E; [|discriminate E]. injection E as <-. reflexivity.
    + do 2 right. left. eexists _, PlainIntDigitsLimit.
      split; [right; left; reflexivity|reflexivity].
Defined.

Lemma plain_directory_to_csv_return set_iter dir_ok glob out_ok t :
  plain_directory_to_csv set_iter dir_ok glob out_ok = PlainReturn t ->
  header t
  = CHUNK_COLUMN
    :: sorted_keys set_iter
         (flat_map (fun f => map fst (plain_members f)) (plain_sort_by_chunk glob))
  /\ rows t = map (fun f => write_row (header t) (plain_row_data f (plain_members f)))
                  (filter plain_is_object (plain_sort_by_chunk glob)).
Proof.
  rewrite plain_directory_to_csv_unfold.
  destruct (negb dir_ok); [discriminate|]. destruct glob as [|f0 fs]; [discriminate|].
  destruct (existsb plain_fatal (f0 :: fs)).
  - destruct (plain_collect_keys _ []); discriminate.
  - cbv zeta. destruct out_ok; [|discriminate].
    intros H. injection H as <-. now split.
Qed.

Lemma str_not_after_trans : Relations_1.Transitive (not_after str_ltb).
Proof.
  intros a b c. unfold not_after. rewrite !str_ltb_lex.
  apply lex_le_trans; char_order.
Qed.

Lemma str_not_after_antisym a b : not_after str_ltb a b -> not_after str_ltb b a -> a = b.
Proof.
  unfold not_after. intros H1 H2. destruct (string_dec a b) as [E|Hne]; [exact E|].
  apply (str_ltb_total b a) in H1; [congruence|congruence].
Qed.

Lemma str_ltb_asym a b : str_ltb a b = true -> str_ltb b a = false.
Proof. rewrite !str_ltb_lex. apply lex_asym; char_order. Qed.

Lemma sorted_keys_sorted set_iter names :
  StronglySorted (not_after str_ltb) (sorted_keys set_iter names).
Proof.
  apply Sorted_StronglySorted; [apply str_not_after_trans|].
  apply stable_sort_sorted. apply str_ltb_asym.
Qed.

Lemma sorted_keys_In set_iter names x :
  set_iter_ok set_iter -> (In x (sorted_keys set_iter names) <-> In x names).
Proof.
  intros Hok. unfold sorted_keys. rewrite stable_sort_In. apply Hok.
Qed.

Lemma sorted_keys_NoDup set_iter names :
  set_iter_ok set_iter -> NoDup (sorted_keys set_iter names).
Proof.
  intros Hok. eapply Permutation_NoDup; [apply stable_sort_perm|]. apply Hok.
Qed.

(** X16.  The header of the plain converter does not depend on the order
    in which the files are met nor on the order in which the set of keys
    is enumerated: it is [chunk_number] followed by the keys in the order
    of [str], which tells any two distinct keys apart. *)
Theorem plain_header_order_independent :
  forall (set_iter1 set_iter2 : list string -> list string),
  set_iter_ok set_iter1 -> set_iter_ok set_iter2 ->
  forall (glob1 glob2 : list plain_file) (dir1 dir2 out1 out2 : bool) (t1 t2 : csv_table),
  Permutation glob1 glob2 ->
  plain_directory_to_csv set_iter1 dir1 glob1 out1 = PlainReturn t1 ->
  plain_directory_to_csv set_iter2 dir2 glob2 out2 = PlainReturn t2 ->
  header t1 = header t2.
Proof.
  intros s1 s2 Hok1 Hok2 glob1 glob2 dir1 dir2 out1 out2 t1 t2 Hp H1 H2.
  apply plain_directory_to_csv_return in H1 as [-> _].
  apply plain_directory_to_csv_return in H2 as [-> _].
  f_equal. apply (sorted_perm_unique (not_after str_ltb)).
  - intros a b _ _. apply str_not_after_antisym.
  - apply sorted_keys_sorted.
  - apply sorted_keys_sorted.
  - apply NoDup_Permutation; try (now apply sorted_keys_NoDup).
    intros x. rewrite !sorted_keys_In by assumption.
    assert (Permutation (plain_sort_by_chunk glob1) (plain_sort_by_chunk glob2)) as Hs.
    { eapply perm_trans; [apply Permutation_sym, plain_sort_perm|].
      eapply perm_trans; [exact Hp|apply plain_sort_perm]. }
    split; apply Permutation_in; apply Permutation_flat_map;
      [exact Hs|apply Permutation_sym; exact Hs].
Qed.

Lemma plain_header_order_independent_witness :
  ["chunk_number"; "A"; "a"] = ["chunk_number"; "A"; "a"].
Proof.
  apply (plain_header_order_independent first_seen first_seen first_seen_ok first_seen_ok
           [{| plain_name := "a.json"; plain_content := PlainLoaded (JObject [("A", JInt 1)]) |};
            {| plain_name := "b.json"; plain_content := PlainLoaded (JObject [("a", JInt 2)]) |}]
           [{| plain_name := "b.json"; plain_content := PlainLoaded (JObject [("a", JInt 2)]) |};
            {| plain_name := "a.json"; plain_content := PlainLoaded (JObject [("A", JInt 1)]) |}]
           true true true true
           {| header := ["chunk_number"; "A"; "a"]; rows := [["0"; "1"; ""]; ["0"; ""; "2"]] |}
           {| header := ["chunk_number"; "A"; "a"]; rows := [["0"; ""; "2"]; ["0"; "1"; ""]] |}
           (perm_swap _ _ [])).
  - vm_compute. reflexivity.
  - vm_compute. reflexivity.
Defined.

Lemma plain_row_data_chunk f members :
  dict_get (plain_row_data f members) CHUNK_COLUMN
  = match last_write CHUNK_COLUMN members with
    | Some v => Some v
    | None => Some (JInt (extract_chunk_number_split (plain_name f)))
    end.
Proof. unfold plain_row_data. rewrite dict_get_update. reflexivity. Qed.

Lemma plain_row_In set_iter dir_ok glob out_ok t f members :
  plain_directory_to_csv set_iter dir_ok glob out_ok = PlainReturn t ->
  In f glob -> plain_content f = PlainLoaded (JObject members) ->
  In (write_row (header t) (plain_row_data f members)) (rows t).
Proof.
  intros Ht Hf Hc. apply plain_directory_to_csv_return in Ht as [_ ->].
  assert (plain_members f = members) as <- by (unfold plain_members; now rewrite Hc).
  apply (in_map (fun f => write_row (header t) (plain_row_data f (plain_members f)))).
  apply filter_In. split.
  - now apply (Permutation_in _ (plain_sort_perm glob)).
  - unfold plain_is_object. now rewrite Hc.
Qed.

(** X17.  In the plain converter a key [chunk_number] of a document takes
    the place of the chunk index: the header then has the column twice,
    and the row of that document shows the document's own value in its
    first cell.  When no document has such a key the column is there once
    and the first cell of a row is the chunk index of its file. *)
Theorem plain_chunk_number_shadowed :
  forall (set_iter : list string -> list string), set_iter_ok set_iter ->
  forall (dir_ok : bool) (glob : list plain_file) (out_ok : bool) (t : csv_table)
         (f : plain_file) (members : list (string * json)),
  plain_directory_to_csv set_iter dir_ok glob out_ok = PlainReturn t ->
  In f glob -> plain_content f = PlainLoaded (JObject members) ->
  In (write_row (header t) (plain_row_data f members)) (rows t)
  /\ (forall v, NoDup (map fst members) -> In (CHUNK_COLUMN, v) members ->
        count_occ string_dec (header t) CHUNK_COLUMN = 2
        /\ hd EmptyString (write_row (header t) (plain_row_data f members)) = csv_cell v)
  /\ ((forall g, In g glob -> ~ In CHUNK_COLUMN (map fst (plain_members g))) ->
        count_occ string_dec (header t) CHUNK_COLUMN = 1
        /\ hd EmptyString (write_row (header t) (plain_row_data f members))
           = str_of_Z (extract_chunk_number_split (plain_name f))).
Proof.
  intros set_iter Hok dir_ok glob out_ok t f members Ht Hf Hc.
  split; [now apply (plain_row_In set_iter dir_ok glob out_ok)|].
  apply plain_directory_to_csv_return in Ht as [Hh _].
  assert (plain_members f = members) as Hm by (unfold plain_members; now rewrite Hc).
  assert (In CHUNK_COLUMN
             (sorted_keys set_iter
                (flat_map (fun f => map fst (plain_members f)) (plain_sort_by_chunk glob)))
          <-> exists g, In g glob /\ In CHUNK_COLUMN (map fst (plain_members g))) as Hin.
  { rewrite (sorted_keys_In _ _ _ Hok), in_flat_map. split.
    - intros (g & Hg & Hk). exists g. split; [|exact Hk].
      now apply (Permutation_in _ (Permutation_sym (plain_sort_perm glob))).
    - intros (g & Hg & Hk). exists g. split; [|exact Hk].
      now apply (Permutation_in _ (plain_sort_perm glob)). }
  split.
  - intros v Hnd Hv. split.
    + rewrite Hh, count_occ_cons_eq by reflexivity. f_equal.
      apply NoDup_count_occ'; [now apply sorted_keys_NoDup|].
      apply Hin. exists f. split; [exact Hf|]. rewrite Hm.
      now apply (in_map fst) in Hv.
    + rewrite Hh. unfold write_row. cbn [map hd].
      now rewrite plain_row_data_chunk, (last_write_unique _ _ _ Hnd Hv).
  - intros Hnone. split.
    + rewrite Hh, count_occ_cons_eq by reflexivity. f_equal.
      apply count_occ_not_In. intros H. apply Hin in H as (g & Hg & Hk).
      now apply (Hnone g Hg).
    + rewrite Hh. unfold write_row. cbn [map hd]. rewrite plain_row_data_chunk.
      assert (last_write CHUNK_COLUMN members = None) as ->
        by (apply last_write_None; rewrite <- Hm; now apply Hnone).
      reflexivity.
Qed.

Lemma plain_chunk_number_shadowed_witness :
  hd EmptyString
     (write_row ["chunk_number"; "chunk_number"]
        (plain_row_data
           {| plain_name := "rec_chunk_007.json";
              plain_content := PlainLoaded (JObject [("chunk_number", JStr "x")]) |}
           [("chunk_number", JStr "x")]))
  = csv_cell (JStr "x").
Proof.
  apply (proj1 (proj2 (plain_chunk_number_shadowed first_seen first_seen_ok true
                  [{| plain_name := "rec_chunk_007.json";
                      plain_content := PlainLoaded (JObject [("chunk_number", JStr "x")]) |}]
                  true {| header := ["chunk_number"; "chunk_number"]; rows := [["x"; "x"]] |}
                  _ [("chunk_number", JStr "x")] eq_refl (or_introl eq_refl) eq_refl))
               (JStr "x")).
  - repeat constructor. intros [].
  - now left.
Defined.
